(** * desksdkgo: the request pipeline, the generic resource service,
      the filter builder and the fixture generator's ticket-type lookup

    A shallow embedding of the Go sources of the Teamwork Desk SDK.  Go
    functions that talk to the network, the clock or the logger become
    computations over an explicit world [W]; a computation either returns
    a value or panics (a nil dereference in the Go code). *)

From Stdlib Require Import ZArith String Ascii List Lia.
From Stdlib Require Import DecimalString DecimalZ DecimalPos.
From stdpp Require Import gmap strings list sorting.

Set Warnings "-register-all,-non-recursive".
Local Open Scope string_scope.
Local Open Scope Z_scope.
Local Open Scope list_scope.

(** ** Computations: world passing with panics *)

(** How a Go call ends: with its results, or with a run-time panic. *)
Inductive outcome (A : Type) : Type :=
| Returned (a : A)
| Panicked.
Arguments Returned {A} a.
Arguments Panicked {A}.

(** A computation over the world [W] (network, clock, log output). *)
Definition M (W A : Type) : Type := W -> outcome A * W.

Definition ret {W A} (a : A) : M W A := fun w => (Returned a, w).

Definition bind {W A B} (m : M W A) (k : A -> M W B) : M W B :=
  fun w => match m w with
           | (Returned a, w') => k a w'
           | (Panicked, w') => (Panicked, w')
           end.

Definition panic {W A} : M W A := fun w => (Panicked, w).

(** An effect that only changes the world. *)
Definition effect {W} (f : W -> W) : M W unit := fun w => (Returned tt, f w).

Notation "'let*' x ':=' m 'in' k" := (bind m (fun x => k))
  (at level 10, x pattern, m at level 100, k at level 200).
Notation "m ;;; k" := (bind m (fun _ => k))
  (at level 100, right associativity).

(** ** net/http, context and error values *)

(** A [context.Context] value.  Whether and when it is cancelled is a
    fact of the world, observed where the code selects on [ctx.Done()]. *)
Definition Ctx : Type := nat.

(** Go [error] values: those made with [fmt.Errorf], the two errors a
    cancelled context reports, and errors handed back by library calls
    (net/http, encoding/json, io). *)
Inductive error : Type :=
| Errorf (msg : string)
| Canceled
| DeadlineExceeded
| LibError (pkg msg : string).

(** The [Error()] method. *)
Definition Error (e : error) : string :=
  match e with
  | Errorf msg => msg
  | Canceled => "context canceled"
  | DeadlineExceeded => "context deadline exceeded"
  | LibError pkg msg => pkg +:+ ": " +:+ msg
  end.

(** A response body stream: [io.ReadAll] hands back the bytes that
    arrived and the error that ended the stream, if any. *)
Record ReadCloser : Type := {
  content : string;
  fault : option error;
}.

Definition ReadAll (b : ReadCloser) : string * option error :=
  (content b, fault b).

Record Response : Type := {
  StatusCode : Z;
  Body : ReadCloser;
}.

Record Request : Type := {
  Method : string;
  URL : string;
  Header : gmap string string;
  ReqBody : option string;
  ReqCtx : Ctx;
}.

(** [req.Header.Set(key, value)] *)
Definition Header_Set (key value : string) (req : Request) : Request :=
  {| Method := Method req; URL := URL req;
     Header := <[key := value]> (Header req);
     ReqBody := ReqBody req; ReqCtx := ReqCtx req |}.

(** [req.Clone(ctx)]: a copy of the request that carries [ctx]. *)
Definition Clone (req : Request) (ctx : Ctx) : Request :=
  {| Method := Method req; URL := URL req; Header := Header req;
     ReqBody := ReqBody req; ReqCtx := ctx |}.

(** The pair of a response pointer and an error every handler returns;
    either component may be nil. *)
Definition Result : Type := option Response * option error.

Definition StatusOK : Z := 200.
Definition StatusCreated : Z := 201.
Definition MethodGet : string := "GET".
Definition MethodPost : string := "POST".
Definition MethodPut : string := "PUT".

(** ** log/slog *)

Inductive Level : Type := LevelDebug | LevelInfo | LevelWarn | LevelError.

Inductive Attr : Type :=
| AttrString (key value : string)
| AttrInt (key : string) (value : Z)
| AttrError (key : string) (value : error).

Record LogRecord : Type := {
  level : Level;
  message : string;
  attrs : list Attr;
}.

(** ** The client *)

Section ClientModel.
Variable W : Type.

(** [type RequestHandler func(ctx, req)], returning a response and an error *)
Definition RequestHandler : Type := Ctx -> Request -> M W Result.

(** [type MiddlewareFunc func(ctx, req, next)], returning the same pair *)
Definition MiddlewareFunc : Type :=
  Ctx -> Request -> RequestHandler -> M W Result.

(** A [slog.Logger], given by what handling one record does. *)
Definition Logger : Type := LogRecord -> W -> W.

(** An [http.Client], given by its [Do] method. *)
Definition HTTPClient : Type := Request -> M W Result.

(** [type Client struct]; the pointer fields are nil until an option
    sets them.  The per-resource services are built from the client
    (see [NewService]) and hold no state of their own. *)
Record Client : Type := {
  baseURL : string;
  apiKey : string;
  logLevel : Level;
  logger : option Logger;
  httpClient : option HTTPClient;
  middleware : list MiddlewareFunc;
}.

Definition Option : Type := Client -> Client.

Definition WithAPIKey (k : string) : Option := fun c =>
  {| baseURL := baseURL c; apiKey := k; logLevel := logLevel c;
     logger := logger c; httpClient := httpClient c;
     middleware := middleware c |}.

Definition WithHTTPClient (h : option HTTPClient) : Option := fun c =>
  {| baseURL := baseURL c; apiKey := apiKey c; logLevel := logLevel c;
     logger := logger c; httpClient := h;
     middleware := middleware c |}.

Definition WithLogLevel (l : Level) : Option := fun c =>
  {| baseURL := baseURL c; apiKey := apiKey c; logLevel := l;
     logger := logger c; httpClient := httpClient c;
     middleware := middleware c |}.

Definition WithLogger (l : option Logger) : Option := fun c =>
  {| baseURL := baseURL c; apiKey := apiKey c; logLevel := logLevel c;
     logger := l; httpClient := httpClient c;
     middleware := middleware c |}.

(** [c.middleware = append(c.middleware, mw)] *)
Definition WithMiddleware (mw : MiddlewareFunc) : Option := fun c =>
  {| baseURL := baseURL c; apiKey := apiKey c; logLevel := logLevel c;
     logger := logger c; httpClient := httpClient c;
     middleware := middleware c ++ [mw] |}.

(** [NewLoggingClientWithLogger(level, logger)], the client used when
    no option supplies one.  Its transport is not part of this
    development; it is taken as given. *)
Variable NewLoggingClientWithLogger : Level -> option Logger -> HTTPClient.

(** [NewClient(baseURL, opts...)]: the zero client with its base URL,
    the options applied in order, then the default HTTP client. *)
Definition NewClient (url : string) (opts : list Option) : Client :=
  let client := fold_left (fun c opt => opt c) opts
    {| baseURL := url; apiKey := ""; logLevel := LevelInfo;
       logger := None; httpClient := None; middleware := [] |} in
  match httpClient client with
  | Some _ => client
  | None =>
      {| baseURL := baseURL client; apiKey := apiKey client;
         logLevel := logLevel client; logger := logger client;
         httpClient :=
           Some (NewLoggingClientWithLogger (logLevel client) (logger client));
         middleware := middleware client |}
  end.

(** [c.httpClient.Do(req)]; a nil client pointer is dereferenced. *)
Definition Do (h : option HTTPClient) (req : Request) : M W Result :=
  match h with
  | Some do => do req
  | None => panic
  end.

(** The loop of [doRequest] that wraps the handler built so far in the
    middleware at index [i - 1], for [i] counting down to zero from the
    length of the list, so that the index is always in range. *)
Fixpoint wrap (mws : list MiddlewareFunc) (i : nat)
    (handler : RequestHandler) : RequestHandler :=
  match i with
  | O => handler
  | S j =>
      match mws !! j with
      | Some middleware =>
          let next := handler in
          wrap mws j (fun ctx req => middleware ctx req next)
      | None => handler
      end
  end.

(** [Client.doRequest(ctx, req)] *)
Definition doRequest (c : Client) (ctx : Ctx) (req : Request) : M W Result :=
  let req := if decide (apiKey c = "") then req
             else Header_Set "Authorization" ("Bearer " +:+ apiKey c) req in
  let req := Header_Set "Content-Type" "application/json" req in
  let req := Header_Set "Accept" "application/json" req in
  let finalHandler : RequestHandler :=
    fun ctx req => Do (httpClient c) req in
  let handler := wrap (middleware c) (length (middleware c)) finalHandler in
  handler ctx req.

(** The chain [doRequest] is meant to build: a right fold of the
    middleware list around the final handler. *)
Definition compose (mws : list MiddlewareFunc) (final : RequestHandler)
    : RequestHandler :=
  foldr (fun mw next => fun ctx req => mw ctx req next) final mws.

End ClientModel.

Arguments baseURL {W}.
Arguments apiKey {W}.
Arguments logLevel {W}.
Arguments logger {W}.
Arguments httpClient {W}.
Arguments middleware {W}.
Arguments WithAPIKey {W}.
Arguments WithHTTPClient {W}.
Arguments WithLogLevel {W}.
Arguments WithLogger {W}.
Arguments WithMiddleware {W}.
Arguments NewClient {W}.
Arguments Do {W}.
Arguments wrap {W}.
Arguments doRequest {W}.
Arguments compose {W}.

(** ** Middleware *)

(** How the [select] between [time.After(retryDelay)] and [ctx.Done()]
    ends: the timer fires, or the context is done first, in which case
    [ctx.Err()] reports the error carried here. *)
Inductive Wakeup : Type :=
| TimerFired
| ContextDone (err : error).

Section RetryModel.
Variable W : Type.

(** The clock and the context: what the [select] in the retry loop
    observes in a given world, and the world after the wait. *)
Variable select_After_Done : Z -> Ctx -> W -> Wakeup * W.

Definition is_nil {A} (p : option A) : bool :=
  match p with None => true | Some _ => false end.

Section Loop.
Variables (maxRetries retryDelay : Z).
Variables (ctx : Ctx) (req : Request) (next : RequestHandler W).

(** The [for attempt := 0; attempt <= maxRetries; attempt++] loop.
    [resp_err] holds the variables [resp] and [err]; [fuel] bounds
    the number of iterations (see [retry_loop_fuel]). *)
Fixpoint retry_loop (fuel : nat) (attempt : Z) (resp_err : Result)
    : M W Result :=
  match fuel with
  | O => ret resp_err
  | S fuel' =>
      if attempt <=? maxRetries then
        let clonedReq := Clone req ctx in
        let* r := next ctx clonedReq in
        if is_nil (snd r) || (attempt =? maxRetries) then
          ret r
        else if attempt <? maxRetries then
          fun w =>
            match select_After_Done retryDelay ctx w with
            | (TimerFired, w') => retry_loop fuel' (attempt + 1) r w'
            | (ContextDone e, w') => (Returned (None, Some e), w')
            end
        else retry_loop fuel' (attempt + 1) r
      else ret resp_err
  end.
End Loop.

(** [RetryMiddleware(maxRetries, retryDelay)] *)
Definition RetryMiddleware (maxRetries retryDelay : Z) : MiddlewareFunc W :=
  fun ctx req next =>
    retry_loop maxRetries retryDelay ctx req next
      (Z.to_nat (maxRetries + 1)) 0 (None, None).

(** The world after [m] attempts that each failed and were each
    followed by a wait that the timer ended. *)
Inductive attempts_failed (retryDelay : Z) (ctx : Ctx) (req : Request)
    (next : RequestHandler W) : nat -> W -> W -> Prop :=
| failed_none w : attempts_failed retryDelay ctx req next 0 w w
| failed_more m w w1 w2 w3 resp e :
    attempts_failed retryDelay ctx req next m w w1 ->
    next ctx (Clone req ctx) w1 = (Returned (resp, Some e), w2) ->
    select_After_Done retryDelay ctx w2 = (TimerFired, w3) ->
    attempts_failed retryDelay ctx req next (S m) w w3.

End RetryModel.

Arguments retry_loop {W}.
Arguments RetryMiddleware {W}.
Arguments attempts_failed {W}.

(** ** Instrumented middleware

    The pattern of MIDDLEWARE.md: pre-request processing, the call of
    [next], post-request processing, and the result of [next] handed
    back.  Here both processing steps write to a trace. *)

Inductive Event : Type :=
| Entered (i : nat)
| Sent
| Left (i : nat).

Definition record (e : Event) : M (list Event) unit :=
  effect (fun trace => trace ++ [e]).

Definition instrumented (i : nat) : MiddlewareFunc (list Event) :=
  fun ctx req next =>
    record (Entered i) ;;;
    let* r := next ctx req in
    record (Left i) ;;;
    ret r.

(** An HTTP client whose [Do] records the send and answers [res]. *)
Definition sender (res : Result) : HTTPClient (list Event) :=
  fun req => record Sent ;;; ret res.

(** ** Path handlers *)

(** [strconv.Itoa] and the [%d] verb: the decimal form of an [int]. *)
Definition Itoa (n : Z) : string := NilZero.string_of_int (Z.to_int n).

Module PathHandler.
(** [type PathHandler interface] *)
Record t : Type := {
  Get : Z -> string;
  List : string;
  Create : string;
  Update : Z -> string;
}.
End PathHandler.

Definition DefaultPathHandler (base : string) : PathHandler.t :=
  {| PathHandler.Get := fun id => base +:+ "/" +:+ Itoa id;
     PathHandler.List := base;
     PathHandler.Create := base;
     PathHandler.Update := fun id => base +:+ "/" +:+ Itoa id |}.

(** [FilePathHandler] embeds the default handler for ["files"] and
    overrides [Create]. *)
Definition FilePathHandler : PathHandler.t :=
  let d := DefaultPathHandler "files" in
  {| PathHandler.Get := PathHandler.Get d;
     PathHandler.List := PathHandler.List d;
     PathHandler.Create := "files/ref";
     PathHandler.Update := PathHandler.Update d |}.

(** ** The generic service (resource.go) *)

(** What encoding/json does for a response type: [json.Marshal] of a
    value and [json.NewDecoder(body).Decode] into a fresh one. *)
Class JSON (A : Type) : Type := {
  Marshal : A -> string + error;
  Decode : ReadCloser -> A + error;
}.

Module Service.
Section Generic.
Context {W T L : Type} `{JSON T} `{JSON L}.

(** [url.Values] and its [Encode] method. *)
Variable Values : Type.
Variable Encode : Values -> string.

(** What [net/url] makes of a raw URL: the parse error, if any. *)
Variable url_Parse : string -> option error.

(** [type Service[T, L] struct].  In the four operations below the
    deferred [resp.Body.Close()] is evaluated on a response that may be
    nil, which is where a nil response with a nil error panics; the
    closing itself changes nothing the operations return and is left
    out. *)
Record t : Type := {
  client : Client W;
  router : PathHandler.t;
}.

Definition NewService (c : Client W) (r : PathHandler.t) : t :=
  {| client := c; router := r |}.

(** [http.NewRequestWithContext(ctx, method, url, body)] for the three
    methods used here: it fails exactly when the URL does not parse. *)
Definition NewRequestWithContext (ctx : Ctx) (method url : string)
    (body : option string) : Request + error :=
  match url_Parse url with
  | Some err => inr err
  | None => inl {| Method := method; URL := url; Header := ∅;
                   ReqBody := body; ReqCtx := ctx |}
  end.

(** [s.client.logger.Error(msg, attrs...)].  The logger is a pointer
    that [NewClient] leaves nil unless [WithLogger] set it; a method
    call on the nil logger dereferences it. *)
Definition logger_Error (s : t) (msg : string) (attrs : list Attr)
    : M W unit :=
  match logger (client s) with
  | Some handle =>
      effect (handle {| level := LevelError; message := msg; attrs := attrs |})
  | None => panic
  end.

(** [json.Marshal(resource)] for a pointer, which may be nil. *)
Definition json_Marshal (resource : option T) : string + error :=
  match resource with
  | Some v => Marshal v
  | None => inl "null"
  end.

(** [Service.Get(ctx, id)] *)
Definition Get (s : t) (ctx : Ctx) (id : Z) : M W (option T * option error) :=
  match NewRequestWithContext ctx MethodGet
          (baseURL (client s) +:+ "/" +:+ PathHandler.Get (router s) id
           +:+ ".json?includes=all") None with
  | inr err =>
      logger_Error s "failed to create request" [AttrError "error" err] ;;;
      ret (None, Some err)
  | inl req =>
      let* r := doRequest (client s) ctx req in
      match r with
      | (_, Some err) =>
          logger_Error s "request failed"
            [AttrError "error" err; AttrString "method" MethodGet;
             AttrString "url" (URL req)] ;;;
          ret (None, Some err)
      | (None, None) => panic
      | (Some resp, None) =>
          if decide (StatusCode resp ≠ StatusOK) then
            let '(body, _) := ReadAll (Body resp) in
            logger_Error s "unexpected status code"
              [AttrInt "status_code" (StatusCode resp);
               AttrString "method" MethodGet;
               AttrString "url" (URL req);
               AttrString "response_body" body] ;;;
            ret (None, Some (Errorf ("unexpected status code: "
                                     +:+ Itoa (StatusCode resp))))
          else
            match Decode (Body resp) with
            | inr err =>
                logger_Error s "failed to decode response"
                  [AttrError "error" err; AttrString "method" MethodGet;
                   AttrString "url" (URL req)] ;;;
                ret (None, Some err)
            | inl resource => ret (Some resource, None)
            end
      end
  end.

(** [Service.List(ctx, params)] *)
Definition List (s : t) (ctx : Ctx) (params : Values)
    : M W (option L * option error) :=
  match NewRequestWithContext ctx MethodGet
          (baseURL (client s) +:+ "/" +:+ PathHandler.List (router s)
           +:+ ".json?" +:+ Encode params) None with
  | inr err =>
      logger_Error s "failed to create request" [AttrError "error" err] ;;;
      ret (None, Some err)
  | inl req =>
      let* r := doRequest (client s) ctx req in
      match r with
      | (_, Some err) =>
          logger_Error s "request failed"
            [AttrError "error" err; AttrString "method" MethodGet;
             AttrString "url" (URL req)] ;;;
          ret (None, Some err)
      | (None, None) => panic
      | (Some resp, None) =>
          if decide (StatusCode resp ≠ StatusOK) then
            let '(body, _) := ReadAll (Body resp) in
            logger_Error s "unexpected status code"
              [AttrInt "status_code" (StatusCode resp);
               AttrString "method" MethodGet;
               AttrString "url" (URL req);
               AttrString "response_body" body] ;;;
            ret (None, Some (Errorf ("unexpected status code: "
                                     +:+ Itoa (StatusCode resp))))
          else
            match Decode (Body resp) with
            | inr err =>
                logger_Error s "failed to decode response"
                  [AttrError "error" err; AttrString "method" MethodGet;
                   AttrString "url" (URL req)] ;;;
                ret (None, Some err)
            | inl resources => ret (Some resources, None)
            end
      end
  end.

(** [Service.Create(ctx, resource)] *)
Definition Create (s : t) (ctx : Ctx) (resource : option T)
    : M W (option T * option error) :=
  match json_Marshal resource with
  | inr err =>
      logger_Error s "failed to marshal request body" [AttrError "error" err] ;;;
      ret (None, Some err)
  | inl body =>
  match NewRequestWithContext ctx MethodPost
          (baseURL (client s) +:+ "/" +:+ PathHandler.Create (router s)
           +:+ ".json") (Some body) with
  | inr err =>
      logger_Error s "failed to create request" [AttrError "error" err] ;;;
      ret (None, Some err)
  | inl req =>
      let* r := doRequest (client s) ctx req in
      match r with
      | (_, Some err) =>
          logger_Error s "request failed"
            [AttrError "error" err; AttrString "method" MethodPost;
             AttrString "url" (URL req)] ;;;
          ret (None, Some err)
      | (None, None) => panic
      | (Some resp, None) =>
          if decide (StatusCode resp ≠ StatusCreated) then
            match ReadAll (Body resp) with
            | (_, Some err) =>
                logger_Error s "failed to read response body"
                  [AttrError "error" err;
                   AttrInt "status_code" (StatusCode resp);
                   AttrString "method" MethodPost;
                   AttrString "url" (URL req)] ;;;
                ret (None, Some err)
            | (b, None) =>
                logger_Error s "unexpected status code"
                  [AttrInt "status_code" (StatusCode resp);
                   AttrString "method" MethodPost;
                   AttrString "url" (URL req);
                   AttrString "response_body" b] ;;;
                ret (None, Some (Errorf ("unexpected status code: "
                                         +:+ Itoa (StatusCode resp)
                                         +:+ ", body: " +:+ b)))
            end
          else
            match Decode (Body resp) with
            | inr err =>
                logger_Error s "failed to decode response"
                  [AttrError "error" err; AttrString "method" MethodPost;
                   AttrString "url" (URL req)] ;;;
                ret (None, Some err)
            | inl createdResource => ret (Some createdResource, None)
            end
      end
  end
  end.

(** [Service.Update(ctx, id, resource)] *)
Definition Update (s : t) (ctx : Ctx) (id : Z) (resource : option T)
    : M W (option T * option error) :=
  match json_Marshal resource with
  | inr err =>
      logger_Error s "failed to marshal request body" [AttrError "error" err] ;;;
      ret (None, Some err)
  | inl body =>
  match NewRequestWithContext ctx MethodPut
          (baseURL (client s) +:+ "/" +:+ PathHandler.Update (router s) id
           +:+ ".json") (Some body) with
  | inr err =>
      logger_Error s "failed to create request" [AttrError "error" err] ;;;
      ret (None, Some err)
  | inl req =>
      let* r := doRequest (client s) ctx req in
      match r with
      | (_, Some err) =>
          logger_Error s "request failed"
            [AttrError "error" err; AttrString "method" MethodPut;
             AttrString "url" (URL req)] ;;;
          ret (None, Some err)
      | (None, None) => panic
      | (Some resp, None) =>
          if decide (StatusCode resp ≠ StatusOK) then
            let '(body, _) := ReadAll (Body resp) in
            logger_Error s "unexpected status code"
              [AttrInt "status_code" (StatusCode resp);
               AttrString "method" MethodPut;
               AttrString "url" (URL req);
               AttrString "response_body" body] ;;;
            ret (None, Some (Errorf ("unexpected status code: "
                                     +:+ Itoa (StatusCode resp))))
          else
            match Decode (Body resp) with
            | inr err =>
                logger_Error s "failed to decode response"
                  [AttrError "error" err; AttrString "method" MethodPut;
                   AttrString "url" (URL req)] ;;;
                ret (None, Some err)
            | inl updatedResource => ret (Some updatedResource, None)
            end
      end
  end
  end.

End Generic.
End Service.

(** ** The ticket-type lookup of the fixture generator (main.go) *)

Module Generate.
Section Lookup.
(** [models.TicketType], [models.Inbox] and [models.EntityRef] with the
    fields the lookup reads. *)
Variables TicketType Inbox EntityRef : Type.
Variable TicketType_ID : TicketType -> Z.
Variable TicketType_Inboxes : TicketType -> list EntityRef.
Variable Inbox_ID : Inbox -> Z.
Variable EntityRef_ID : EntityRef -> Z.

(** [for _, ttibx := range tt.Inboxes]: on the first reference to
    [ibx] assign [t = tt] and [break]. *)
Fixpoint scan_refs (tty : TicketType) (ibx : Inbox) (refs : list EntityRef)
    (t : TicketType) : TicketType :=
  match refs with
  | [] => t
  | ttibx :: refs' =>
      if EntityRef_ID ttibx =? Inbox_ID ibx then tty
      else scan_refs tty ibx refs' t
  end.

(** [for _, ibx := range inboxes.Inboxes] *)
Fixpoint scan_inboxes (tty : TicketType) (inboxes : list Inbox)
    (t : TicketType) : TicketType :=
  match inboxes with
  | [] => t
  | ibx :: inboxes' =>
      scan_inboxes tty inboxes' (scan_refs tty ibx (TicketType_Inboxes tty) t)
  end.

(** [for _, tt := range types.TicketTypes], with [tty] for the loop variable [tt] *)
Fixpoint scan_types (types : list TicketType) (inboxes : list Inbox)
    (t : TicketType) : TicketType :=
  match types with
  | [] => t
  | tty :: types' => scan_types types' inboxes (scan_inboxes tty inboxes t)
  end.

(** The value of [t] after the three loops, from its zero value. *)
Definition select_type (zero : TicketType) (types : list TicketType)
    (inboxes : list Inbox) : TicketType :=
  scan_types types inboxes zero.

(** [if t.ID == 0]: no ticket type was selected, and the generator
    stops with [log.Fatal]. *)
Definition none_selected (t : TicketType) : bool := TicketType_ID t =? 0.

(** [tty] refers to one of the inboxes. *)
Definition associated (inboxes : list Inbox) (tty : TicketType) : bool :=
  existsb (fun ibx =>
    existsb (fun ttibx => EntityRef_ID ttibx =? Inbox_ID ibx)
            (TicketType_Inboxes tty)) inboxes.

End Lookup.
End Generate.

(** ** JSON documents and their text *)

(** Modelled from the spec: the values a filter document is made of,
    those Go passes around as [any] and encoding/json writes: null,
    booleans, numbers (here the integers), strings, arrays and objects. *)
Inductive json : Type :=
| JNull
| JBool (b : bool)
| JNum (n : Z)
| JStr (s : string)
| JArr (l : list json)
| JObj (m : gmap string json).

Fixpoint json_size (v : json) : nat :=
  match v with
  | JArr l => S (foldr (fun x acc => json_size x + acc)%nat O l)
  | JObj m => S (map_fold (fun _ x acc => json_size x + acc)%nat O m)
  | _ => 1%nat
  end.

Definition quote : ascii := "034"%char.
Definition backslash : ascii := "\"%char.

Definition is_digit (c : ascii) : bool :=
  (48 <=? nat_of_ascii c)%nat && (nat_of_ascii c <=? 57)%nat.

Fixpoint digits (d : Decimal.uint) : list ascii :=
  match d with
  | Decimal.Nil => []
  | Decimal.D0 d => "0"%char :: digits d
  | Decimal.D1 d => "1"%char :: digits d
  | Decimal.D2 d => "2"%char :: digits d
  | Decimal.D3 d => "3"%char :: digits d
  | Decimal.D4 d => "4"%char :: digits d
  | Decimal.D5 d => "5"%char :: digits d
  | Decimal.D6 d => "6"%char :: digits d
  | Decimal.D7 d => "7"%char :: digits d
  | Decimal.D8 d => "8"%char :: digits d
  | Decimal.D9 d => "9"%char :: digits d
  end.

Definition hex (n : nat) : ascii :=
  nth n (list_ascii_of_string "0123456789abcdef") "0"%char.

Definition unhex (c : ascii) : option nat :=
  let n := nat_of_ascii c in
  if is_digit c then Some (n - 48)%nat
  else if (97 <=? n)%nat && (n <=? 102)%nat then Some (n - 87)%nat
  else None.

(** A byte inside a JSON string: the quote and the backslash get a
    backslash, control bytes the six-character unicode escape. *)
Definition escape (c : ascii) : list ascii :=
  if (c =? quote)%char then [backslash; quote]
  else if (c =? backslash)%char then [backslash; backslash]
  else if (nat_of_ascii c <? 32)%nat then
    [backslash; "u"%char; "0"%char; "0"%char;
     hex (nat_of_ascii c / 16); hex (nat_of_ascii c mod 16)]
  else [c].

Definition enc_string (s : string) : list ascii :=
  quote :: flat_map escape (list_ascii_of_string s) ++ [quote].

Definition enc_num (n : Z) : list ascii :=
  match Z.to_int n with
  | Decimal.Pos d => digits d
  | Decimal.Neg d => "-"%char :: digits d
  end.

Fixpoint join (parts : list (list ascii)) : list ascii :=
  match parts with
  | [] => []
  | [p] => p
  | p :: ps => p ++ ","%char :: join ps
  end.

(** Object members are written in the byte order of their keys. *)
Definition key_le (p q : string * list ascii) : Prop :=
  Is_true (String.leb (fst p) (fst q)).

#[local] Instance key_le_dec p q : Decision (key_le p q).
Proof. unfold key_le. apply _. Defined.

Definition member (p : string * list ascii) : list ascii :=
  enc_string (fst p) ++ ":"%char :: snd p.

Fixpoint enc (v : json) : list ascii :=
  match v with
  | JNull => list_ascii_of_string "null"
  | JBool true => list_ascii_of_string "true"
  | JBool false => list_ascii_of_string "false"
  | JNum n => enc_num n
  | JStr s => enc_string s
  | JArr l => "["%char :: join (map enc l) ++ ["]"%char]
  | JObj m =>
      "{"%char
      :: join (map member
                 (merge_sort key_le
                    (map_fold (fun k x acc => (k, enc x) :: acc) [] m)))
      ++ ["}"%char]
  end.

(** Modelled from the spec: the canonical JSON text [Build()] gives for
    an expression, written compactly and with the keys of an object in
    byte order, as encoding/json writes a map. *)
Definition text_of (v : json) : string := string_of_list_ascii (enc v).

Definition digit_of (c : ascii) : option (Decimal.uint -> Decimal.uint) :=
  if (c =? "0")%char then Some Decimal.D0
  else if (c =? "1")%char then Some Decimal.D1
  else if (c =? "2")%char then Some Decimal.D2
  else if (c =? "3")%char then Some Decimal.D3
  else if (c =? "4")%char then Some Decimal.D4
  else if (c =? "5")%char then Some Decimal.D5
  else if (c =? "6")%char then Some Decimal.D6
  else if (c =? "7")%char then Some Decimal.D7
  else if (c =? "8")%char then Some Decimal.D8
  else if (c =? "9")%char then Some Decimal.D9
  else None.

Fixpoint parse_digits (input : list ascii) : Decimal.uint * list ascii :=
  match input with
  | [] => (Decimal.Nil, [])
  | c :: rest =>
      match digit_of c with
      | Some D => let '(d, rest') := parse_digits rest in (D d, rest')
      | None => (Decimal.Nil, input)
      end
  end.

Definition parse_number (negative : bool) (input : list ascii)
    : option (json * list ascii) :=
  match parse_digits input with
  | (Decimal.Nil, _) => None
  | (d, rest) =>
      Some (JNum (Z.of_int (if negative then Decimal.Neg d else Decimal.Pos d)),
            rest)
  end.

(** The bytes of a string up to its closing quote. *)
Fixpoint parse_chars (input : list ascii) : option (list ascii * list ascii) :=
  match input with
  | [] => None
  | c :: rest =>
      if (c =? quote)%char then Some ([], rest)
      else if (c =? backslash)%char then
        match rest with
        | e :: rest1 =>
            if (e =? quote)%char || (e =? backslash)%char then
              match parse_chars rest1 with
              | Some (s, r) => Some (e :: s, r)
              | None => None
              end
            else if (e =? "u")%char then
              match rest1 with
              | a :: b :: x :: y :: rest2 =>
                  if (a =? "0")%char && (b =? "0")%char then
                    match unhex x, unhex y, parse_chars rest2 with
                    | Some hi, Some lo, Some (s, r) =>
                        Some (ascii_of_nat (16 * hi + lo) :: s, r)
                    | _, _, _ => None
                    end
                  else None
              | _ => None
              end
            else None
        | [] => None
        end
      else
        match parse_chars rest with
        | Some (s, r) => Some (c :: s, r)
        | None => None
        end
  end.

Definition strip (word : string) (input : list ascii) : option (list ascii) :=
  let w := list_ascii_of_string word in
  if decide (take (length w) input = w) then Some (drop (length w) input)
  else None.

Fixpoint parse_value (fuel : nat) (input : list ascii)
    : option (json * list ascii) :=
  match fuel with
  | O => None
  | S fuel' =>
      match input with
      | [] => None
      | c :: rest =>
          if is_digit c then parse_number false input
          else if (c =? "-")%char then parse_number true rest
          else if (c =? quote)%char then
            match parse_chars rest with
            | Some (s, r) => Some (JStr (string_of_list_ascii s), r)
            | None => None
            end
          else if (c =? "n")%char then
            match strip "null" input with
            | Some r => Some (JNull, r)
            | None => None
            end
          else if (c =? "t")%char then
            match strip "true" input with
            | Some r => Some (JBool true, r)
            | None => None
            end
          else if (c =? "f")%char then
            match strip "false" input with
            | Some r => Some (JBool false, r)
            | None => None
            end
          else if (c =? "[")%char then
            match rest with
            | c1 :: rest1 =>
                if (c1 =? "]")%char then Some (JArr [], rest1)
                else
                  match parse_elements fuel' rest with
                  | Some (l, r) => Some (JArr l, r)
                  | None => None
                  end
            | [] => None
            end
          else if (c =? "{")%char then
            match rest with
            | c1 :: rest1 =>
                if (c1 =? "}")%char then Some (JObj ∅, rest1)
                else
                  match parse_members fuel' rest with
                  | Some (kvs, r) => Some (JObj (list_to_map kvs), r)
                  | None => None
                  end
            | [] => None
            end
          else None
      end
  end
with parse_elements (fuel : nat) (input : list ascii)
    : option (list json * list ascii) :=
  match fuel with
  | O => None
  | S fuel' =>
      match parse_value fuel' input with
      | Some (v, c :: r) =>
          if (c =? ",")%char then
            match parse_elements fuel' r with
            | Some (vs, r1) => Some (v :: vs, r1)
            | None => None
            end
          else if (c =? "]")%char then Some ([v], r)
          else None
      | _ => None
      end
  end
with parse_members (fuel : nat) (input : list ascii)
    : option (list (string * json) * list ascii) :=
  match fuel with
  | O => None
  | S fuel' =>
      match input with
      | c :: rest =>
          if (c =? quote)%char then
            match parse_chars rest with
            | Some (k, c1 :: r) =>
                if (c1 =? ":")%char then
                  match parse_value fuel' r with
                  | Some (v, c2 :: r1) =>
                      if (c2 =? ",")%char then
                        match parse_members fuel' r1 with
                        | Some (kvs, r2) =>
                            Some ((string_of_list_ascii k, v) :: kvs, r2)
                        | None => None
                        end
                      else if (c2 =? "}")%char then
                        Some ([(string_of_list_ascii k, v)], r1)
                      else None
                  | _ => None
                  end
                else None
            | _ => None
            end
          else None
      | [] => None
      end
  end.

(** Modelled from the spec: parsing a text as JSON, for the texts the
    builder writes (no white space between tokens). *)
Definition parse (text : string) : option json :=
  match parse_value (S (String.length text)) (list_ascii_of_string text) with
  | Some (v, []) => Some v
  | _ => None
  end.

(** What may follow the text of a document for it to be read back:
    nothing, or a byte that is no digit. *)
Definition follow_ok (rest : list ascii) : Prop :=
  match rest with
  | [] => True
  | c :: _ => is_digit c = false
  end.


(** A document read back from its own text, whatever follows. *)
Definition reads_back (v : json) : Prop :=
  forall rest fuel,
    follow_ok rest -> (length (enc v) <= fuel)%nat ->
    parse_value fuel (enc v ++ rest) = Some (v, rest).


(** An object member with its value as text. *)
Definition entry_text (p : string * json) : string * list ascii :=
  (fst p, enc (snd p)).

(** ** The filter builder *)

Module Filter.

(** [type FilterOperator string] and its constants, as the test file
    spells them out. *)
Definition FilterOperator : Type := string.
Definition OpEq : FilterOperator := "$eq".
Definition OpNe : FilterOperator := "$ne".
Definition OpLt : FilterOperator := "$lt".
Definition OpLte : FilterOperator := "$lte".
Definition OpGt : FilterOperator := "$gt".
Definition OpGte : FilterOperator := "$gte".
Definition OpIn : FilterOperator := "$in".
Definition OpNin : FilterOperator := "$nin".
Definition OpAnd : FilterOperator := "$and".
Definition OpOr : FilterOperator := "$or".

(** A pointer to a [FilterBuilder]. *)
Abbreviation ptr := nat (only parsing).

(** Modelled from the spec: the implementation of the filter builder is
    not among the sources, only its tests are.  What a key of the
    builder's map holds: under a field the object with one key per
    operator, under [$and] or [$or] the sub-filters, kept by reference
    and looked at when the filter is built. *)
Inductive entry : Type :=
| Conditions (ops : gmap string json)
| Subfilters (children : list ptr).

(** [type FilterBuilder struct], with the one field [filter] the tests
    read: a map that [NewFilter] makes empty. *)
Record FilterBuilder : Type := {
  filter : gmap string entry;
}.

(** The builders there are, by address. *)
Abbreviation heap := (gmap nat FilterBuilder) (only parsing).

(** Modelled from the spec: [NewFilter()] gives a new builder holding
    the empty expression. *)
Definition NewFilter (h : heap) : ptr * heap :=
  let f := fresh (dom h) in
  (f, <[f := {| filter := ∅ |}]> h).

Definition conditions_of (e : option entry) : gmap string json :=
  match e with
  | Some (Conditions ops) => ops
  | _ => ∅
  end.

(** Modelled from the spec: a comparison sets or overwrites the key of
    its operator under the field and keeps the keys of the other
    operators there; the call hands back the builder it was made on.
    (An address that holds no builder is left alone.) *)
Definition addCondition (f : ptr) (field : string) (op : FilterOperator)
    (value : json) (h : heap) : ptr * heap :=
  (f, alter (fun b =>
               {| filter :=
                    <[field := Conditions
                                 (<[op := value]>
                                    (conditions_of (filter b !! field)))]>
                      (filter b) |}) f h).

Definition Eq (f : ptr) (field : string) (value : json) :=
  addCondition f field OpEq value.
Definition Ne (f : ptr) (field : string) (value : json) :=
  addCondition f field OpNe value.
Definition Lt (f : ptr) (field : string) (value : json) :=
  addCondition f field OpLt value.
Definition Lte (f : ptr) (field : string) (value : json) :=
  addCondition f field OpLte value.
Definition Gt (f : ptr) (field : string) (value : json) :=
  addCondition f field OpGt value.
Definition Gte (f : ptr) (field : string) (value : json) :=
  addCondition f field OpGte value.

(** Modelled from the spec: [In] and [Nin] set their key to the array
    of the values, in the order given. *)
Definition In (f : ptr) (field : string) (values : list json) :=
  addCondition f field OpIn (JArr values).
Definition Nin (f : ptr) (field : string) (values : list json) :=
  addCondition f field OpNin (JArr values).

(** Modelled from the spec: [And] and [Or] put the sub-filters under
    [$and] and [$or]; what the sub-filters hold is read at build time. *)
Definition combine (op : FilterOperator) (f : ptr) (filters : list ptr)
    (h : heap) : ptr * heap :=
  (f, alter (fun b =>
               {| filter := <[op := Subfilters filters]> (filter b) |}) f h).

Definition And (f : ptr) (filters : list ptr) := combine OpAnd f filters.
Definition Or (f : ptr) (filters : list ptr) := combine OpOr f filters.

(** The six comparison methods with the operators the tests expect of
    them. *)
Definition comparisons
    : list ((ptr -> string -> json -> heap -> ptr * heap) * FilterOperator) :=
  [(Eq, OpEq); (Ne, OpNe); (Lt, OpLt); (Lte, OpLte); (Gt, OpGt); (Gte, OpGte)].

Definition entry_doc (sub : ptr -> option json) (e : entry) : option json :=
  match e with
  | Conditions ops => Some (JObj ops)
  | Subfilters fs => JArr <$> mapM sub fs
  end.

(** Modelled from the spec: the document a builder stands for, its
    map with every sub-filter replaced by that sub-filter's document.  [fuel] bounds the nesting;
    there is no document when a sub-filter is missing from the heap or
    the nesting does not end. *)
Fixpoint resolve (fuel : nat) (h : heap) (f : ptr) : option json :=
  match fuel with
  | O => None
  | S fuel' =>
      match h !! f with
      | None => None
      | Some b =>
          match mapM (fun p => pair (fst p) <$> entry_doc (resolve fuel' h) (snd p))
                  (map_to_list (filter b)) with
          | Some kvs => Some (JObj (list_to_map kvs))
          | None => None
          end
      end
  end.

(** Nesting cannot be deeper than the number of builders unless it
    runs in a circle. *)
Definition document (h : heap) (f : ptr) : option json :=
  resolve (S (size h)) h f.

(** Modelled from the spec: [Build()] serializes the expression to
    JSON text; the empty filter gives the empty object. *)
Definition Build (f : ptr) (h : heap) : option string :=
  text_of <$> document h f.

End Filter.

(** A string between double quotes. *)
Definition quoted (s : string) : string :=
  String quote (s +:+ String quote "").

(** ** Filters of the builder's tests *)

(** [filter1 := NewFilter().Eq("status", "open")] and
    [filter2 := NewFilter().Gt("priority", 2)] of TestLogicalOperators:
    the two builders and the heap they live in. *)
Definition two_filters : nat * nat * gmap nat Filter.FilterBuilder :=
  let '(filter1, h) := Filter.NewFilter ∅ in
  let '(filter1, h) := Filter.Eq filter1 "status" (JStr "open") h in
  let '(filter2, h) := Filter.NewFilter h in
  let '(filter2, h) := Filter.Gt filter2 "priority" (JNum 2) h in
  (filter1, filter2, h).

Definition status_open_text : string :=
  "{" +:+ quoted "status" +:+ ":{" +:+ quoted "$eq" +:+ ":"
  +:+ quoted "open" +:+ "}}".

Definition priority_gt_text : string :=
  "{" +:+ quoted "priority" +:+ ":{" +:+ quoted "$gt" +:+ ":2}}".

(** ** A concrete retry run

    The world is the number of invocations made so far.  The handler
    answers 503 with a nil error once [healthy_from] invocations have
    failed; context [0] is never done, any other context is cancelled
    during the first wait. *)
Definition flaky (healthy_from : nat) : RequestHandler nat :=
  fun ctx req n =>
    if (healthy_from <=? n)%nat then
      (Returned (Some {| StatusCode := 503;
                         Body := {| content := "busy"; fault := None |} |},
                 None), S n)
    else
      (Returned (None, Some (LibError "net/http" "connection refused")), S n).

Definition never_healthy : RequestHandler nat :=
  fun ctx req n =>
    (Returned (None, Some (LibError "net/http" "connection refused")), S n).

Definition clock : Z -> Ctx -> nat -> Wakeup * nat :=
  fun d ctx n =>
    match ctx with
    | O => (TimerFired, n)
    | S _ => (ContextDone Canceled, n)
    end.

Definition ping : Request :=
  {| Method := MethodGet; URL := "https://desk.example/desk/api/v2/tickets.json";
     Header := ∅; ReqBody := None; ReqCtx := 0%nat |}.

(** ** What a service call may do *)

(** A result pair with exactly one non-nil component. *)
Definition exactly_one {A} (r : option A * option error) : Prop :=
  (is_Some (fst r) /\ snd r = None) \/ (fst r = None /\ is_Some (snd r)).

(** The pipeline gave the service nothing to go on: it panicked, or it
    returned a nil response together with a nil error. *)
Definition gives_nothing (o : outcome Result) : Prop :=
  o = Panicked \/ o = Returned (None, None).

(** A service call is sound when it returns a pair with exactly one
    non-nil component, or panics for one of the two reasons the code
    has: the client has no logger, or the pipeline gave nothing. *)
Definition sound {W A} (c : Client W) (ctx : Ctx)
    (o : outcome (option A * option error)) : Prop :=
  match o with
  | Returned r => exactly_one r
  | Panicked =>
      logger c = None \/
      exists req w0, gives_nothing (fst (doRequest c ctx req w0))
  end.

(** [text] occurs in the message of the error. *)
Definition mentions (text : string) (e : error) : bool :=
  match String.index 0 text (Error e) with
  | Some _ => true
  | None => false
  end.

(** ** A concrete exchange

    A client whose logger appends to the world, a list of log records,
    and whose HTTP client answers every request with [resp]. *)
Definition log_to_list : Logger (list LogRecord) :=
  fun r logs => logs ++ [r].

Definition answering (resp : Response) : HTTPClient (list LogRecord) :=
  fun req => ret (Some resp, None).

(** Plain text as a resource type: it is its own JSON form. *)
#[local] Instance JSON_text : JSON string := {|
  Marshal := fun v => inl v;
  Decode := fun b =>
    match fault b with
    | Some e => inr e
    | None => inl (content b)
    end;
|}.

Definition desk (resp : Response) : Client (list LogRecord) :=
  NewClient (fun _ _ => answering resp) "https://desk.example/desk/api/v2"
    [WithAPIKey "key"; WithLogger (Some log_to_list);
     WithHTTPClient (Some (answering resp))].

Definition tickets (resp : Response) : Service.t :=
  Service.NewService (desk resp) (DefaultPathHandler "tickets").

Definition any_url : string -> option error := fun _ => None.

Definition not_found : Response :=
  {| StatusCode := 404; Body := {| content := "not found"; fault := None |} |}.

(** A response whose body stream breaks off after some bytes. *)
Definition broken_off : Response :=
  {| StatusCode := 500;
     Body := {| content := "partial";
                fault := Some (LibError "io" "unexpected EOF") |} |}.

(** * Properties *)

(** ** Computations *)

Lemma bind_returned {W A B} (m : M W A) (k : A -> M W B) w a w' :
  m w = (Returned a, w') -> bind m k w = k a w'.
Proof. intros E. unfold bind. now rewrite E. Qed.

Lemma bind_panicked {W A B} (m : M W A) (k : A -> M W B) w w' :
  m w = (Panicked, w') -> bind m k w = (Panicked, w').
Proof. intros E. unfold bind. now rewrite E. Qed.

(** ** The middleware chain of [doRequest] *)

Section ChainFacts.
Context {W : Type}.

Lemma wrap_take (mws : list (MiddlewareFunc W)) i handler :
  (i <= length mws)%nat ->
  wrap mws i handler = compose (take i mws) handler.
Proof.
  revert handler. induction i as [|i IH]; intros handler Hi.
  - reflexivity.
  - cbn [wrap]. destruct (lookup_lt_is_Some_2 mws i) as [mw Hmw]; [lia|].
    unfold MiddlewareFunc in *. rewrite Hmw, IH by lia.
    rewrite (take_S_r _ _ _ Hmw). unfold compose.
    now rewrite foldr_app.
Qed.

Lemma wrap_compose (mws : list (MiddlewareFunc W)) handler :
  wrap mws (length mws) handler = compose mws handler.
Proof. rewrite wrap_take by lia. now rewrite firstn_all. Qed.

Lemma options_middleware (opts : list (MiddlewareFunc W)) c :
  middleware (fold_left (fun c opt => opt c) (map WithMiddleware opts) c)
  = middleware c ++ opts.
Proof.
  revert c. induction opts as [|mw opts IH]; intros c; simpl.
  - now rewrite app_nil_r.
  - rewrite IH. simpl. now rewrite <- app_assoc.
Qed.

Lemma options_httpClient (opts : list (MiddlewareFunc W)) c :
  httpClient (fold_left (fun c opt => opt c) (map WithMiddleware opts) c)
  = httpClient c.
Proof.
  revert c. induction opts as [|mw opts IH]; intros c; simpl;
    [|rewrite IH]; reflexivity.
Qed.

End ChainFacts.

(** What the chain of instrumented middleware writes around a final
    handler that writes [mid] and answers [res]. *)
Lemma compose_instrumented (ids : list nat) (final : RequestHandler (list Event))
    (res : Result) (mid : list Event) :
  (forall ctx req trace, final ctx req trace = (Returned res, trace ++ mid)) ->
  forall ctx req trace,
    compose (map instrumented ids) final ctx req trace
    = (Returned res,
       trace ++ map Entered ids ++ mid ++ rev (map Left ids)).
Proof.
  intros Hfinal. induction ids as [|i ids IH]; intros ctx req trace.
  - simpl. rewrite Hfinal. now rewrite app_nil_r.
  - cbn [map compose foldr]. fold (compose (map instrumented ids) final).
    unfold instrumented at 1. unfold record, effect, bind, ret.
    rewrite IH. cbn [rev]. f_equal.
    rewrite <- !app_assoc. reflexivity.
Qed.

(** The three-middleware flow listed in MIDDLEWARE.md. *)
Example three_middleware_flow :
  forall ctx req res,
    doRequest
      {| baseURL := "https://desk.example/desk/api/v2"; apiKey := "k";
         logLevel := LevelInfo; logger := None;
         httpClient := Some (sender res);
         middleware := [instrumented 1; instrumented 2; instrumented 3]%nat |}
      ctx req []
    = (Returned res,
       [Entered 1; Entered 2; Entered 3; Sent; Left 3; Left 2; Left 1]%nat).
Proof. reflexivity. Qed.

(** C1. Middleware registered with [WithMiddleware] in the order
    M1..Mn runs, for every request, as M1-in, M2-in, ..., Mn-in, the
    terminal send, Mn-out, ..., M1-out: registration keeps the order in
    the client's middleware list, and [doRequest] on that client appends
    exactly that sequence to the trace and hands back the answer of the
    send. *)
Theorem middleware_in_declaration_order_out_in_reverse :
  forall (ids : list nat) (res : Result) (dflt : Level -> option (Logger (list Event)) -> HTTPClient (list Event))
         (url key : string) (ctx : Ctx) (req : Request) (trace : list Event),
    let c := NewClient dflt url
               (WithAPIKey key :: WithHTTPClient (Some (sender res))
                :: map (fun i => WithMiddleware (instrumented i)) ids) in
    middleware c = map instrumented ids /\
    doRequest c ctx req trace
    = (Returned res,
       trace ++ map Entered ids ++ [Sent] ++ rev (map Left ids)).
Proof.
  intros ids res dflt url key ctx req trace c.
  assert (Hmw : middleware c = map instrumented ids /\
                httpClient c = Some (sender res)).
  { subst c. unfold NewClient. cbn [fold_left].
    rewrite <- (map_map instrumented WithMiddleware).
    rewrite options_httpClient. cbn [httpClient WithHTTPClient].
    rewrite options_middleware. cbn [middleware WithHTTPClient WithAPIKey].
    rewrite options_httpClient. split; reflexivity. }
  destruct Hmw as [Hmw Hcl]. split; [exact Hmw|].
  unfold doRequest. rewrite Hmw, Hcl, wrap_compose.
  apply compose_instrumented. intros ctx' req' trace'. reflexivity.
Qed.

(** ** The retry loop *)

Section RetryFacts.
Context {W : Type}.
Variable sel : Z -> Ctx -> W -> Wakeup * W.
Variables (k d : Z) (ctx : Ctx) (req : Request) (next : RequestHandler W).

Let loop := retry_loop sel k d ctx req next.

(** An attempt whose error is nil ends the loop with its result. *)
Lemma loop_success fuel attempt last w resp w1 :
  attempt <= k ->
  next ctx (Clone req ctx) w = (Returned (resp, None), w1) ->
  loop (S fuel) attempt last w = (Returned (resp, None), w1).
Proof.
  intros Hle Hnext. subst loop. cbn [retry_loop].
  rewrite (proj2 (Z.leb_le _ _) Hle).
  rewrite (bind_returned _ _ _ _ _ Hnext). reflexivity.
Qed.

(** The attempt numbered [maxRetries] ends the loop whatever it gives. *)
Lemma loop_last fuel last w r w1 :
  next ctx (Clone req ctx) w = (Returned r, w1) ->
  loop (S fuel) k last w = (Returned r, w1).
Proof.
  intros Hnext. subst loop. cbn [retry_loop].
  rewrite Z.leb_refl, (bind_returned _ _ _ _ _ Hnext), Z.eqb_refl.
  now rewrite orb_true_r.
Qed.

(** A failed attempt before the last one waits; when the timer ends
    the wait the loop goes on with the next attempt. *)
Lemma loop_retry fuel attempt last w resp e w1 w2 :
  attempt < k ->
  next ctx (Clone req ctx) w = (Returned (resp, Some e), w1) ->
  sel d ctx w1 = (TimerFired, w2) ->
  loop (S fuel) attempt last w = loop fuel (attempt + 1) (resp, Some e) w2.
Proof.
  intros Hlt Hnext Hsel. subst loop. cbn [retry_loop].
  rewrite (proj2 (Z.leb_le _ _)) by lia.
  rewrite (bind_returned _ _ _ _ _ Hnext). cbn [snd is_nil orb].
  rewrite (proj2 (Z.eqb_neq _ _)) by lia.
  rewrite (proj2 (Z.ltb_lt _ _) Hlt), Hsel. reflexivity.
Qed.

(** ... and when the context ends the wait the loop returns at once. *)
Lemma loop_cancelled fuel attempt last w resp e w1 cerr w2 :
  attempt < k ->
  next ctx (Clone req ctx) w = (Returned (resp, Some e), w1) ->
  sel d ctx w1 = (ContextDone cerr, w2) ->
  loop (S fuel) attempt last w = (Returned (None, Some cerr), w2).
Proof.
  intros Hlt Hnext Hsel. subst loop. cbn [retry_loop].
  rewrite (proj2 (Z.leb_le _ _)) by lia.
  rewrite (bind_returned _ _ _ _ _ Hnext). cbn [snd is_nil orb].
  rewrite (proj2 (Z.eqb_neq _ _)) by lia.
  rewrite (proj2 (Z.ltb_lt _ _) Hlt), Hsel. reflexivity.
Qed.

(** After [m] failed attempts the loop stands at attempt [m]. *)
Lemma loop_after_failures m w wm :
  attempts_failed sel d ctx req next m w wm ->
  Z.of_nat m <= k ->
  forall fuel last, exists last',
    loop (m + fuel) 0 last w = loop fuel (Z.of_nat m) last' wm.
Proof.
  induction 1 as [w|m w w1 w2 w3 resp e Hm IH Hnext Hsel];
    intros Hle fuel last.
  - exists last. reflexivity.
  - destruct (IH ltac:(lia) (S fuel) last) as [last' Eq].
    exists (resp, Some e).
    replace (S m + fuel)%nat with (m + S fuel)%nat by lia.
    rewrite Eq.
    rewrite (loop_retry fuel (Z.of_nat m) last' w1 resp e w2 w3)
      by first [lia | assumption].
    f_equal. lia.
Qed.

(** The fuel [RetryMiddleware] starts with covers every attempt: the
    loop never stops for lack of it. *)
Lemma retry_loop_fuel fuel attempt last w :
  (Z.to_nat (k + 1 - attempt) <= fuel)%nat ->
  loop fuel attempt last w
  = loop (Z.to_nat (k + 1 - attempt)) attempt last w.
Proof.
  revert attempt last w.
  induction fuel as [|fuel IH]; intros attempt last w Hfuel.
  - replace (Z.to_nat (k + 1 - attempt)) with O by lia. reflexivity.
  - destruct (Z.to_nat (k + 1 - attempt)) as [|n] eqn:En.
    + subst loop. cbn [retry_loop].
      rewrite (proj2 (Z.leb_gt _ _)) by lia. reflexivity.
    + subst loop. cbn [retry_loop].
      destruct (attempt <=? k); [|reflexivity].
      unfold bind. destruct (next ctx (Clone req ctx) w) as [[r|] w1];
        [|reflexivity].
      destruct (is_nil (snd r) || (attempt =? k)); [reflexivity|].
      assert (Hn : n = Z.to_nat (k + 1 - (attempt + 1))) by lia.
      destruct (attempt <? k).
      * destruct (sel d ctx w1) as [[|cerr] w2]; [|reflexivity].
        rewrite (IH (attempt + 1)) by lia. now rewrite Hn.
      * rewrite (IH (attempt + 1)) by lia. now rewrite Hn.
Qed.

End RetryFacts.

(** With a negative [maxRetries] the loop body never runs. *)
Lemma retry_negative {W} sel (k d : Z) ctx req (next : RequestHandler W) w :
  k < 0 -> RetryMiddleware sel k d ctx req next w = (Returned (None, None), w).
Proof.
  intros Hk. unfold RetryMiddleware.
  replace (Z.to_nat (k + 1)) with O by lia. reflexivity.
Qed.

(** C9. [RetryMiddleware] re-attempts only after a non-nil error: when
    an invocation of the wrapped handler (the first, or one that follows
    failed attempts) returns a response with a nil error, whatever the
    status code of that response, the middleware returns exactly that
    result in the world that invocation left, so neither a wait nor a
    further attempt follows. *)
Theorem retry_stops_at_first_nil_error :
  forall (W : Type) (sel : Z -> Ctx -> W -> Wakeup * W)
         (k d : Z) (ctx : Ctx) (req : Request) (next : RequestHandler W)
         (m : nat) (w wm w' : W) (resp : option Response),
    attempts_failed sel d ctx req next m w wm ->
    Z.of_nat m <= k ->
    next ctx (Clone req ctx) wm = (Returned (resp, None), w') ->
    RetryMiddleware sel k d ctx req next w = (Returned (resp, None), w').
Proof.
  intros W sel k d ctx req next m w wm w' resp Hm Hle Hnext.
  unfold RetryMiddleware.
  destruct (loop_after_failures sel k d ctx req next m w wm Hm Hle
              (S (Z.to_nat (k - Z.of_nat m))) (None, None)) as [last' Eq].
  replace (Z.to_nat (k + 1)) with (m + S (Z.to_nat (k - Z.of_nat m)))%nat by lia.
  rewrite Eq. now apply loop_success.
Qed.

(** C7. When the caller's context is done while [RetryMiddleware] waits
    between two attempts, the middleware returns a nil response with the
    context's error, in the world in which the wait was cut short: no
    further attempt is made. *)
Theorem retry_cancelled_while_waiting :
  forall (W : Type) (sel : Z -> Ctx -> W -> Wakeup * W)
         (k d : Z) (ctx : Ctx) (req : Request) (next : RequestHandler W)
         (m : nat) (w wm w1 w2 : W) (resp : option Response)
         (e cerr : error),
    attempts_failed sel d ctx req next m w wm ->
    Z.of_nat m < k ->
    next ctx (Clone req ctx) wm = (Returned (resp, Some e), w1) ->
    sel d ctx w1 = (ContextDone cerr, w2) ->
    RetryMiddleware sel k d ctx req next w = (Returned (None, Some cerr), w2).
Proof.
  intros W sel k d ctx req next m w wm w1 w2 resp e cerr Hm Hlt Hnext Hsel.
  unfold RetryMiddleware.
  destruct (loop_after_failures sel k d ctx req next m w wm Hm ltac:(lia)
              (S (Z.to_nat (k - Z.of_nat m))) (None, None)) as [last' Eq].
  replace (Z.to_nat (k + 1)) with (m + S (Z.to_nat (k - Z.of_nat m)))%nat by lia.
  rewrite Eq. eapply loop_cancelled; eassumption.
Qed.

(** A handler that fails on every invocation, under a context that is
    never done during a wait, reaches any number of failed attempts. *)
Lemma always_failing_attempts {W} (sel : Z -> Ctx -> W -> Wakeup * W)
    (calls : W -> nat) d ctx req (next : RequestHandler W) :
  (forall c r w0, exists resp e w1,
      next c r w0 = (Returned (resp, Some e), w1) /\ calls w1 = S (calls w0)) ->
  (forall w0, exists w1,
      sel d ctx w0 = (TimerFired, w1) /\ calls w1 = calls w0) ->
  forall m w, exists wm,
    attempts_failed sel d ctx req next m w wm /\
    calls wm = (calls w + m)%nat.
Proof.
  intros Hfail Hwait m. induction m as [|m IH]; intros w.
  - exists w. split; [constructor | lia].
  - destruct (IH w) as (wm & Hm & Hc).
    destruct (Hfail ctx (Clone req ctx) wm) as (resp & e & w1 & Hnext & Hc1).
    destruct (Hwait w1) as (w2 & Hsel & Hc2).
    exists w2. split; [econstructor; eassumption | lia].
Qed.

(** C2. For [maxRetries = k >= 0] and a handler that fails on every
    invocation, when the caller's context is not done during any of the
    waits, [RetryMiddleware k d] invokes the handler exactly [k + 1]
    times and returns what the last of these invocations returned, its
    error included.  [calls] counts the invocations: every invocation
    adds one and a wait adds none. *)
Theorem retry_always_failing_invokes_k_plus_1 :
  forall (W : Type) (sel : Z -> Ctx -> W -> Wakeup * W) (calls : W -> nat)
         (k d : Z) (ctx : Ctx) (req : Request) (next : RequestHandler W)
         (w : W),
    0 <= k ->
    (forall c r w0, exists resp e w1,
        next c r w0 = (Returned (resp, Some e), w1) /\
        calls w1 = S (calls w0)) ->
    (forall w0, exists w1,
        sel d ctx w0 = (TimerFired, w1) /\ calls w1 = calls w0) ->
    exists (w_last w' : W) (resp : option Response) (e : error),
      Z.of_nat (calls w_last) = Z.of_nat (calls w) + k /\
      next ctx (Clone req ctx) w_last = (Returned (resp, Some e), w') /\
      RetryMiddleware sel k d ctx req next w = (Returned (resp, Some e), w') /\
      Z.of_nat (calls w') = Z.of_nat (calls w) + (k + 1).
Proof.
  intros W sel calls k d ctx req next w Hk Hfail Hwait.
  destruct (always_failing_attempts sel calls d ctx req next Hfail Hwait
              (Z.to_nat k) w) as (wk & Hm & Hc).
  destruct (Hfail ctx (Clone req ctx) wk) as (resp & e & w' & Hnext & Hc').
  exists wk, w', resp, e. repeat split; [lia | exact Hnext | | lia].
  unfold RetryMiddleware.
  destruct (loop_after_failures sel k d ctx req next _ w wk Hm ltac:(lia)
              1%nat (None, None)) as [last' Eq].
  replace (Z.to_nat (k + 1)) with (Z.to_nat k + 1)%nat by lia.
  rewrite Eq. rewrite Z2Nat.id by lia. now apply loop_last.
Qed.

Lemma retry_stops_at_first_nil_error_witness :
  RetryMiddleware clock 3 1000 0%nat ping (flaky 1) 0%nat
  = (Returned (Some {| StatusCode := 503;
                       Body := {| content := "busy"; fault := None |} |},
               None), 2%nat).
Proof.
  apply (retry_stops_at_first_nil_error nat clock 3 1000 0%nat ping (flaky 1)
           1 0%nat 1%nat 2%nat).
  - apply (failed_more nat clock 1000 0%nat ping (flaky 1) 0 0%nat 0%nat 1%nat 1%nat
             None (LibError "net/http" "connection refused")).
    + apply failed_none.
    + reflexivity.
    + reflexivity.
  - lia.
  - reflexivity.
Defined.

Lemma retry_cancelled_while_waiting_witness :
  RetryMiddleware clock 3 1000 1%nat ping never_healthy 0%nat
  = (Returned (None, Some Canceled), 1%nat).
Proof.
  apply (retry_cancelled_while_waiting nat clock 3 1000 1%nat ping never_healthy
           0 0%nat 0%nat 1%nat 1%nat None
           (LibError "net/http" "connection refused") Canceled).
  - apply failed_none.
  - lia.
  - reflexivity.
  - reflexivity.
Defined.

Lemma retry_always_failing_invokes_k_plus_1_witness :
  exists (w_last w' : nat) (resp : option Response) (e : error),
    Z.of_nat w_last = Z.of_nat 0 + 3 /\
    never_healthy 0%nat (Clone ping 0%nat) w_last = (Returned (resp, Some e), w') /\
    RetryMiddleware clock 3 1000 0%nat ping never_healthy 0%nat
    = (Returned (resp, Some e), w') /\
    Z.of_nat w' = Z.of_nat 0 + (3 + 1).
Proof.
  apply (retry_always_failing_invokes_k_plus_1 nat clock (fun n => n)
           3 1000 0%nat ping never_healthy 0%nat).
  - lia.
  - intros c r w0. exists None, (LibError "net/http" "connection refused"), (S w0).
    split; reflexivity.
  - intros w0. exists w0. split; reflexivity.
Defined.

(** The same runs, evaluated. *)
Example retry_three_times_then_give_up :
  RetryMiddleware clock 3 1000 0%nat ping never_healthy 0%nat
  = (Returned (None, Some (LibError "net/http" "connection refused")), 4%nat).
Proof. reflexivity. Qed.

Example retry_returns_5xx_without_retrying :
  RetryMiddleware clock 3 1000 0%nat ping (flaky 0) 0%nat
  = (Returned (Some {| StatusCode := 503;
                       Body := {| content := "busy"; fault := None |} |},
               None), 1%nat).
Proof. reflexivity. Qed.

(** *** Retrying under a cancelled context

    With [maxRetries = 3] and a handler that fails on every invocation,
    a context that is done during the first wait ends the retrying after
    one invocation, with the context's error: the handler is not invoked
    four times and the error is not the handler's. *)
Lemma retry_cancelled_before_k_plus_1 :
  (forall c r n, exists resp e,
      never_healthy c r n = (Returned (resp, Some e), S n)) /\
  RetryMiddleware clock 3 1000 1%nat ping never_healthy 0%nat
  = (Returned (None, Some Canceled), 1%nat) /\
  ~ (exists resp e,
       RetryMiddleware clock 3 1000 1%nat ping never_healthy 0%nat
       = (Returned (resp, Some e), 4%nat)).
Proof.
  split; [|split].
  - intros c r n. do 2 eexists. reflexivity.
  - reflexivity.
  - intros (resp & e & H). vm_compute in H. discriminate.
Qed.

(** ** The generic service *)

Section ServiceFacts.
Context {W T L : Type} `{JSON T} `{JSON L}.
Variable Values : Type.
Variable Encode : Values -> string.
Variable url_Parse : string -> option error.

Local Ltac split_cases :=
  repeat match goal with
  | |- context [match ?x with _ => _ end] =>
      lazymatch x with
      | doRequest _ _ _ _ => fail
      | _ => destruct x eqn:?
      end
  | |- context [if ?x then _ else _] => destruct x eqn:?
  end.

Local Ltac settle :=
  cbn [fst snd sound exactly_one];
  first
    [ left; split; [eexists; reflexivity | reflexivity]
    | right; split; [reflexivity | eexists; reflexivity]
    | left; assumption
    | right; do 2 eexists; unfold gives_nothing;
      match goal with E : doRequest _ _ _ _ = _ |- _ => rewrite E end;
      cbn [fst]; first [left; reflexivity | right; reflexivity] ].

Local Ltac run s :=
  unfold Service.logger_Error, bind, ret, panic, effect, ReadAll;
  destruct (logger (Service.client s)) as [lg|] eqn:Hlg;
  repeat match goal with
  | |- context [doRequest ?c ?x ?r ?w] =>
      destruct (doRequest c x r w) as [[[[resp|] [err|]]|] w1] eqn:?
  end;
  split_cases; settle.

Lemma Get_sound (s : Service.t) ctx id (w : W) :
  sound (Service.client s) ctx (fst (Service.Get url_Parse s ctx id w)).
Proof. unfold Service.Get. split_cases; run s. Qed.

Lemma List_sound (s : Service.t) ctx params (w : W) :
  sound (Service.client s) ctx
    (fst (Service.List (L := L) Values Encode url_Parse s ctx params w)).
Proof. unfold Service.List. split_cases; run s. Qed.

Lemma Create_sound (s : Service.t) ctx (resource : option T) (w : W) :
  sound (Service.client s) ctx
    (fst (Service.Create url_Parse s ctx resource w)).
Proof. unfold Service.Create. split_cases; run s. Qed.

Lemma Update_sound (s : Service.t) ctx id (resource : option T) (w : W) :
  sound (Service.client s) ctx
    (fst (Service.Update url_Parse s ctx id resource w)).
Proof. unfold Service.Update. split_cases; run s. Qed.

(** On a status other than 200 the error of [Get], [List] and [Update]
    is made from the status code alone; the body goes to the logger. *)
Lemma Get_unexpected_status (s : Service.t) ctx id lg req (w w1 : W) resp :
  logger (Service.client s) = Some lg ->
  Service.NewRequestWithContext url_Parse ctx MethodGet
    (baseURL (Service.client s) +:+ "/"
     +:+ PathHandler.Get (Service.router s) id +:+ ".json?includes=all") None
  = inl req ->
  doRequest (Service.client s) ctx req w = (Returned (Some resp, None), w1) ->
  StatusCode resp <> StatusOK ->
  Service.Get (T := T) url_Parse s ctx id w
  = (Returned (None,
               Some (Errorf ("unexpected status code: "
                             +:+ Itoa (StatusCode resp)))),
     lg {| level := LevelError; message := "unexpected status code";
           attrs := [AttrInt "status_code" (StatusCode resp);
                     AttrString "method" MethodGet;
                     AttrString "url" (URL req);
                     AttrString "response_body" (content (Body resp))] |}
        w1).
Proof using Type.
  intros Hlg Hreq Hdo Hst. unfold Service.Get. rewrite Hreq.
  unfold bind at 1. rewrite Hdo.
  destruct (decide (StatusCode resp ≠ StatusOK)) as [_|]; [|tauto].
  unfold ReadAll, Service.logger_Error. rewrite Hlg. reflexivity.
Qed.

Lemma List_unexpected_status (s : Service.t) ctx params lg req (w w1 : W) resp :
  logger (Service.client s) = Some lg ->
  Service.NewRequestWithContext url_Parse ctx MethodGet
    (baseURL (Service.client s) +:+ "/"
     +:+ PathHandler.List (Service.router s) +:+ ".json?" +:+ Encode params)
    None
  = inl req ->
  doRequest (Service.client s) ctx req w = (Returned (Some resp, None), w1) ->
  StatusCode resp <> StatusOK ->
  Service.List (L := L) Values Encode url_Parse s ctx params w
  = (Returned (None,
               Some (Errorf ("unexpected status code: "
                             +:+ Itoa (StatusCode resp)))),
     lg {| level := LevelError; message := "unexpected status code";
           attrs := [AttrInt "status_code" (StatusCode resp);
                     AttrString "method" MethodGet;
                     AttrString "url" (URL req);
                     AttrString "response_body" (content (Body resp))] |}
        w1).
Proof using Type.
  intros Hlg Hreq Hdo Hst. unfold Service.List. rewrite Hreq.
  unfold bind at 1. rewrite Hdo.
  destruct (decide (StatusCode resp ≠ StatusOK)) as [_|]; [|tauto].
  unfold ReadAll, Service.logger_Error. rewrite Hlg. reflexivity.
Qed.

Lemma Update_unexpected_status (s : Service.t) ctx id (resource : option T)
    lg body req (w w1 : W) resp :
  logger (Service.client s) = Some lg ->
  Service.json_Marshal resource = inl body ->
  Service.NewRequestWithContext url_Parse ctx MethodPut
    (baseURL (Service.client s) +:+ "/"
     +:+ PathHandler.Update (Service.router s) id +:+ ".json") (Some body)
  = inl req ->
  doRequest (Service.client s) ctx req w = (Returned (Some resp, None), w1) ->
  StatusCode resp <> StatusOK ->
  Service.Update url_Parse s ctx id resource w
  = (Returned (None,
               Some (Errorf ("unexpected status code: "
                             +:+ Itoa (StatusCode resp)))),
     lg {| level := LevelError; message := "unexpected status code";
           attrs := [AttrInt "status_code" (StatusCode resp);
                     AttrString "method" MethodPut;
                     AttrString "url" (URL req);
                     AttrString "response_body" (content (Body resp))] |}
        w1).
Proof using Type.
  intros Hlg Hm Hreq Hdo Hst. unfold Service.Update. rewrite Hm, Hreq.
  unfold bind at 1. rewrite Hdo.
  destruct (decide (StatusCode resp ≠ StatusOK)) as [_|]; [|tauto].
  unfold ReadAll, Service.logger_Error. rewrite Hlg. reflexivity.
Qed.

End ServiceFacts.

(** C10. Each of [Get], [List], [Create] and [Update] returns a pair
    with exactly one non-nil component: a decoded result with a nil
    error, or a nil result with an error.  The calls that do not return
    are the ones that panic, which happens only when the client has no
    logger or when the pipeline panics or hands back a nil response with
    a nil error. *)
Theorem service_returns_result_or_error :
  forall (W T L : Type) (JT : JSON T) (JL : JSON L)
         (Values : Type) (Encode : Values -> string)
         (url_Parse : string -> option error)
         (s : Service.t) (ctx : Ctx) (id : Z) (params : Values)
         (resource : option T) (w : W),
    sound (Service.client s) ctx (fst (Service.Get url_Parse s ctx id w)) /\
    sound (Service.client s) ctx
      (fst (Service.List (L := L) Values Encode url_Parse s ctx params w)) /\
    sound (Service.client s) ctx
      (fst (Service.Create url_Parse s ctx resource w)) /\
    sound (Service.client s) ctx
      (fst (Service.Update url_Parse s ctx id resource w)).
Proof.
  intros. repeat split.
  - apply Get_sound.
  - apply List_sound.
  - apply Create_sound.
  - apply Update_sound.
Qed.

Section CreateFacts.
Context {W T : Type} `{JSON T}.
Variable url_Parse : string -> option error.
Variables (s : Service.t (W := W)) (ctx : Ctx) (resource : option T).
Variables (lg : Logger W) (body : string) (req : Request).

Hypothesis has_logger : logger (Service.client s) = Some lg.
Hypothesis marshalled : Service.json_Marshal resource = inl body.
Hypothesis request_built :
  Service.NewRequestWithContext url_Parse ctx MethodPost
    (baseURL (Service.client s) +:+ "/"
     +:+ PathHandler.Create (Service.router s) +:+ ".json") (Some body)
  = inl req.

Local Ltac enter w Hdo :=
  unfold Service.Create; rewrite marshalled, request_built;
  unfold bind at 1; rewrite Hdo.

(** Status other than 201, body read in full. *)
Lemma Create_unexpected_status w resp w1 :
  doRequest (Service.client s) ctx req w = (Returned (Some resp, None), w1) ->
  StatusCode resp <> StatusCreated ->
  fault (Body resp) = None ->
  Service.Create url_Parse s ctx resource w
  = (Returned (None,
               Some (Errorf ("unexpected status code: "
                             +:+ Itoa (StatusCode resp)
                             +:+ ", body: " +:+ content (Body resp)))),
     lg {| level := LevelError; message := "unexpected status code";
           attrs := [AttrInt "status_code" (StatusCode resp);
                     AttrString "method" MethodPost;
                     AttrString "url" (URL req);
                     AttrString "response_body" (content (Body resp))] |}
        w1).
Proof using has_logger marshalled request_built.
  intros Hdo Hst Hread. enter w Hdo.
  destruct (decide (StatusCode resp ≠ StatusCreated)) as [_|]; [|tauto].
  unfold ReadAll. rewrite Hread.
  unfold Service.logger_Error. rewrite has_logger. reflexivity.
Qed.

(** Status other than 201, body stream broken: the read error. *)
Lemma Create_unreadable_body w resp w1 err :
  doRequest (Service.client s) ctx req w = (Returned (Some resp, None), w1) ->
  StatusCode resp <> StatusCreated ->
  fault (Body resp) = Some err ->
  fst (Service.Create url_Parse s ctx resource w)
  = Returned (None, Some err).
Proof using has_logger marshalled request_built.
  intros Hdo Hst Hread. enter w Hdo.
  destruct (decide (StatusCode resp ≠ StatusCreated)) as [_|]; [|tauto].
  unfold ReadAll. rewrite Hread.
  unfold Service.logger_Error. rewrite has_logger. reflexivity.
Qed.

(** Status 201: the body is decoded. *)
Lemma Create_created w resp w1 :
  doRequest (Service.client s) ctx req w = (Returned (Some resp, None), w1) ->
  StatusCode resp = StatusCreated ->
  fst (Service.Create url_Parse s ctx resource w)
  = match Decode (Body resp) with
    | inl createdResource => Returned (Some createdResource, None)
    | inr err => Returned (None, Some err)
    end.
Proof using has_logger marshalled request_built.
  intros Hdo Hst. enter w Hdo.
  destruct (decide (StatusCode resp ≠ StatusCreated)) as [|_]; [tauto|].
  destruct (Decode (Body resp)); [reflexivity|].
  unfold Service.logger_Error. rewrite has_logger. reflexivity.
Qed.

End CreateFacts.

(** Without a logger the error paths of the service panic. *)
Lemma Create_without_logger {W T} `{JSON T} url_Parse (s : Service.t (W := W))
    ctx (resource : option T) body req w resp w1 :
  logger (Service.client s) = None ->
  Service.json_Marshal resource = inl body ->
  Service.NewRequestWithContext url_Parse ctx MethodPost
    (baseURL (Service.client s) +:+ "/"
     +:+ PathHandler.Create (Service.router s) +:+ ".json") (Some body)
  = inl req ->
  doRequest (Service.client s) ctx req w = (Returned (Some resp, None), w1) ->
  StatusCode resp <> StatusCreated ->
  fst (Service.Create url_Parse s ctx resource w) = Panicked.
Proof.
  intros Hlg Hm Hreq Hdo Hst. unfold Service.Create.
  rewrite Hm, Hreq. unfold bind at 1. rewrite Hdo.
  destruct (decide (StatusCode resp ≠ StatusCreated)) as [_|]; [|tauto].
  unfold ReadAll, Service.logger_Error. rewrite Hlg.
  destruct (fault (Body resp)); reflexivity.
Qed.

(** C4. When [Create], on a client with a logger, receives a response
    whose status is not 201, it returns a nil entity and an error: the
    error whose message holds that status code and the response body
    when the body was read in full, and the read error when reading the
    body failed.  When the status is 201 it decodes the body into the
    entity, returning the entity with a nil error or, if decoding fails,
    a nil entity with the decoding error. *)
Theorem create_expects_201 :
  forall (W T : Type) (JT : JSON T) (url_Parse : string -> option error)
         (s : Service.t) (ctx : Ctx) (resource : option T)
         (lg : Logger W) (body : string) (req : Request)
         (w w1 : W) (resp : Response),
    logger (Service.client s) = Some lg ->
    Service.json_Marshal resource = inl body ->
    Service.NewRequestWithContext url_Parse ctx MethodPost
      (baseURL (Service.client s) +:+ "/"
       +:+ PathHandler.Create (Service.router s) +:+ ".json") (Some body)
    = inl req ->
    doRequest (Service.client s) ctx req w = (Returned (Some resp, None), w1) ->
    (StatusCode resp <> StatusCreated ->
     fst (Service.Create url_Parse s ctx resource w)
     = Returned (None,
                 Some (match fault (Body resp) with
                       | None =>
                           Errorf ("unexpected status code: "
                                   +:+ Itoa (StatusCode resp)
                                   +:+ ", body: " +:+ content (Body resp))
                       | Some err => err
                       end))) /\
    (StatusCode resp = StatusCreated ->
     fst (Service.Create url_Parse s ctx resource w)
     = match Decode (Body resp) with
       | inl createdResource => Returned (Some createdResource, None)
       | inr err => Returned (None, Some err)
       end).
Proof.
  intros W T JT url_Parse s ctx resource lg body req w w1 resp
    Hlg Hm Hreq Hdo.
  split; intros Hst.
  - destruct (fault (Body resp)) as [err|] eqn:Hread.
    + eapply Create_unreadable_body; eassumption.
    + erewrite Create_unexpected_status by eassumption. reflexivity.
  - eapply Create_created; eassumption.
Qed.

(** C3. At a 404 response with the body [not found], [Get], [List] and
    [Update] return a nil result and the error [unexpected status code:
    404]: the status code is in the error, the body is not.  The body
    goes to the logger only, while [Create] on the same response puts
    the body into its error. *)
Theorem status_error_of_get_list_update_omits_body :
  let failure := Returned (None, Some (Errorf "unexpected status code: 404")) in
  fst (Service.Get any_url (tickets not_found) 0%nat 7 []) = failure /\
  fst (Service.List (L := string) (list (string * string)) (fun _ => "page=1")
         any_url (tickets not_found) 0%nat [] []) = failure /\
  fst (Service.Update any_url (tickets not_found) 0%nat 7 (Some "{}") [])
  = failure /\
  mentions "404" (Errorf "unexpected status code: 404") = true /\
  mentions "not found" (Errorf "unexpected status code: 404") = false /\
  snd (Service.Get (T := string) any_url (tickets not_found) 0%nat 7 [])
  = [{| level := LevelError; message := "unexpected status code";
        attrs := [AttrInt "status_code" 404; AttrString "method" "GET";
                  AttrString "url"
                    "https://desk.example/desk/api/v2/tickets/7.json?includes=all";
                  AttrString "response_body" "not found"] |}] /\
  fst (Service.Create any_url (tickets not_found) 0%nat (Some "{}") [])
  = Returned (None,
              Some (Errorf "unexpected status code: 404, body: not found")).
Proof. cbv zeta. repeat split; vm_compute; reflexivity. Qed.

Lemma create_expects_201_witness :
  (StatusCode not_found <> StatusCreated ->
   fst (Service.Create any_url (tickets not_found) 0%nat (Some "{}") [])
   = Returned (None,
               Some (match fault (Body not_found) with
                     | None =>
                         Errorf ("unexpected status code: "
                                 +:+ Itoa (StatusCode not_found)
                                 +:+ ", body: " +:+ content (Body not_found))
                     | Some err => err
                     end))) /\
  (StatusCode not_found = StatusCreated ->
   fst (Service.Create any_url (tickets not_found) 0%nat (Some "{}") [])
   = match Decode (Body not_found) with
     | inl createdResource => Returned (Some createdResource, None)
     | inr err => Returned (None, Some err)
     end).
Proof.
  apply (create_expects_201 (list LogRecord) string JSON_text any_url
           (tickets not_found) 0%nat (Some "{}") log_to_list "{}"
           {| Method := MethodPost;
              URL := "https://desk.example/desk/api/v2/tickets.json";
              Header := ∅; ReqBody := Some "{}"; ReqCtx := 0%nat |}
           [] [] not_found).
  - reflexivity.
  - reflexivity.
  - reflexivity.
  - reflexivity.
Defined.

(** A 500 response whose body stream breaks: [Create] returns no error
    that holds the status code or the bytes that did arrive. *)
Lemma create_broken_body_loses_status :
  StatusCode broken_off <> StatusCreated /\
  ~ exists e,
      fst (Service.Create any_url (tickets broken_off) 0%nat (Some "{}") [])
      = Returned (None, Some e) /\
      mentions (Itoa (StatusCode broken_off)) e = true /\
      mentions (content (Body broken_off)) e = true.
Proof.
  split; [discriminate|].
  intros (e & He & Hcode & _).
  vm_compute in He. injection He as <-.
  vm_compute in Hcode. discriminate.
Qed.

(** ** The ticket-type lookup *)

Section LookupFacts.
Variables TicketType Inbox EntityRef : Type.
Variable TicketType_Inboxes : TicketType -> list EntityRef.
Variable Inbox_ID : Inbox -> Z.
Variable EntityRef_ID : EntityRef -> Z.

Let scan_refs := Generate.scan_refs TicketType Inbox EntityRef
                   Inbox_ID EntityRef_ID.
Let scan_inboxes := Generate.scan_inboxes TicketType Inbox EntityRef
                      TicketType_Inboxes Inbox_ID EntityRef_ID.
Let scan_types := Generate.scan_types TicketType Inbox EntityRef
                    TicketType_Inboxes Inbox_ID EntityRef_ID.
Let associated := Generate.associated TicketType Inbox EntityRef
                    TicketType_Inboxes Inbox_ID EntityRef_ID.

(** The innermost loop assigns [tty] when a reference matches, and
    only leaves [t] alone when none does. *)
Lemma scan_refs_spec tty ibx refs t :
  scan_refs tty ibx refs t
  = if existsb (fun ttibx => EntityRef_ID ttibx =? Inbox_ID ibx) refs
    then tty else t.
Proof.
  induction refs as [|r refs IH]; [reflexivity|].
  subst scan_refs. cbn [Generate.scan_refs existsb].
  destruct (EntityRef_ID r =? Inbox_ID ibx); [reflexivity | exact IH].
Qed.

(** The [break] leaves the loop over the inboxes running; the
    assignment is repeated or not, with the same value. *)
Lemma scan_inboxes_spec tty inboxes t :
  scan_inboxes tty inboxes t = if associated inboxes tty then tty else t.
Proof.
  revert t. induction inboxes as [|ibx inboxes IH]; intros t; [reflexivity|].
  subst scan_inboxes associated.
  cbn [Generate.scan_inboxes Generate.associated existsb].
  rewrite IH. fold scan_refs. rewrite scan_refs_spec.
  unfold Generate.associated.
  destruct (existsb _ (TicketType_Inboxes tty)); cbn [orb];
    destruct (existsb _ inboxes); reflexivity.
Qed.

Lemma last_cons (x d : TicketType) l : List.last (x :: l) d = List.last l x.
Proof.
  revert x d. induction l as [|y l IH]; intros x d; [reflexivity|].
  change (List.last (x :: y :: l) d) with (List.last (y :: l) d).
  now rewrite (IH y d), (IH y x).
Qed.

Lemma scan_types_spec types inboxes t :
  scan_types types inboxes t
  = List.last (List.filter (associated inboxes) types) t.
Proof.
  revert t. induction types as [|tty types IH]; intros t; [reflexivity|].
  subst scan_types. cbn [Generate.scan_types List.filter].
  rewrite IH. fold scan_inboxes. rewrite scan_inboxes_spec.
  destruct (associated inboxes tty); [|reflexivity].
  now rewrite last_cons.
Qed.

End LookupFacts.

(** C8. The lookup selects the last ticket type, in the iteration order
    of the ticket types, that refers to one of the available inboxes:
    the [break] ends only the loop over that type's references, so a
    later matching type overwrites an earlier match (and the zero value
    stays when no type matches). *)
Theorem lookup_selects_last_associated_type :
  forall (TicketType Inbox EntityRef : Type)
         (TicketType_Inboxes : TicketType -> list EntityRef)
         (Inbox_ID : Inbox -> Z) (EntityRef_ID : EntityRef -> Z)
         (zero : TicketType) (types : list TicketType) (inboxes : list Inbox),
    Generate.select_type TicketType Inbox EntityRef TicketType_Inboxes
      Inbox_ID EntityRef_ID zero types inboxes
    = List.last
        (List.filter
           (Generate.associated TicketType Inbox EntityRef TicketType_Inboxes
              Inbox_ID EntityRef_ID inboxes) types)
        zero.
Proof. intros. unfold Generate.select_type. apply scan_types_spec. Qed.

(** Two ticket types on the same inbox: the second one is selected. *)
Example lookup_overwrites_earlier_match :
  Generate.select_type (Z * list Z) Z Z snd id id (0, [])
    [(11, [5; 1]); (12, [1]); (13, [9])] [1; 2]
  = (12, [1]).
Proof. reflexivity. Qed.

(** ** JSON text round trip *)

Lemma json_size_elem (l : list json) x :
  x ∈ l -> (json_size x < json_size (JArr l))%nat.
Proof.
  cbn [json_size]. induction 1; cbn [foldr]; lia.
Qed.

Lemma json_size_member (m : gmap string json) k x :
  m !! k = Some x -> (json_size x < json_size (JObj m))%nat.
Proof.
  intros Hk. cbn [json_size]. rewrite map_fold_foldr.
  apply elem_of_map_to_list in Hk. revert Hk.
  induction (map_to_list m) as [|[k' y] l IH]; intros Hk.
  - now apply elem_of_nil in Hk.
  - apply elem_of_cons in Hk. destruct Hk as [[= <- <-]|Hk]; simpl.
    + lia.
    + specialize (IH Hk). lia.
Qed.

(** Induction on documents, with the hypothesis for every element of
    an array and every member of an object. *)
Lemma json_ind' (P : json -> Prop) :
  P JNull ->
  (forall b, P (JBool b)) ->
  (forall n, P (JNum n)) ->
  (forall s, P (JStr s)) ->
  (forall l, Forall P l -> P (JArr l)) ->
  (forall m, map_Forall (fun _ x => P x) m -> P (JObj m)) ->
  forall v, P v.
Proof.
  intros Hnull Hbool Hnum Hstr Harr Hobj v.
  remember (json_size v) as n eqn:Hn. revert v Hn.
  induction (lt_wf n) as [n _ IH]. intros [|b|z|s|l|m] ->; auto.
  - apply Harr, Forall_forall. intros x Hx.
    apply (IH (json_size x)); [|reflexivity].
    now apply json_size_elem.
  - apply Hobj. intros k x Hk.
    apply (IH (json_size x)); [|reflexivity].
    eapply json_size_member; eassumption.
Qed.

Local Ltac each_byte c :=
  destruct c as [[] [] [] [] [] [] [] []].

Lemma digit_of_other c : is_digit c = false -> digit_of c = None.
Proof. each_byte c; vm_compute; congruence. Qed.

Lemma parse_digits_digits d rest :
  follow_ok rest -> parse_digits (digits d ++ rest) = (d, rest).
Proof.
  intros Hrest. induction d; cbn [digits app parse_digits];
    try (change (digit_of _) with (Some Decimal.D0) ||
         change (digit_of _) with (Some Decimal.D1) ||
         change (digit_of _) with (Some Decimal.D2) ||
         change (digit_of _) with (Some Decimal.D3) ||
         change (digit_of _) with (Some Decimal.D4) ||
         change (digit_of _) with (Some Decimal.D5) ||
         change (digit_of _) with (Some Decimal.D6) ||
         change (digit_of _) with (Some Decimal.D7) ||
         change (digit_of _) with (Some Decimal.D8) ||
         change (digit_of _) with (Some Decimal.D9));
    try (rewrite IHd; reflexivity).
  destruct rest as [|c rest]; [reflexivity|].
  cbn [parse_digits]. now rewrite (digit_of_other c Hrest).
Qed.

Lemma digits_head d :
  d <> Decimal.Nil -> exists c ds, digits d = c :: ds /\ is_digit c = true.
Proof. destruct d; [congruence|..]; intros _; do 2 eexists; split; reflexivity. Qed.

Lemma parse_number_digits negative d rest :
  d <> Decimal.Nil -> follow_ok rest ->
  parse_number negative (digits d ++ rest)
  = Some (JNum (Z.of_int (if negative then Decimal.Neg d else Decimal.Pos d)),
          rest).
Proof.
  intros Hd Hrest. unfold parse_number. rewrite parse_digits_digits by assumption.
  destruct d; [congruence|..]; reflexivity.
Qed.

Lemma parse_value_num fuel n rest :
  follow_ok rest ->
  parse_value (S fuel) (enc_num n ++ rest) = Some (JNum n, rest).
Proof.
  intros Hrest. unfold enc_num.
  pose proof (DecimalZ.of_to n) as Hn.
  assert (Hnil : match Z.to_int n with
                 | Decimal.Pos d | Decimal.Neg d => d <> Decimal.Nil
                 end).
  { destruct n; cbn; try apply DecimalPos.Unsigned.to_uint_nonnil.
    discriminate. }
  destruct (Z.to_int n) as [d|d].
  - destruct (digits_head d Hnil) as (c & ds & Hds & Hc).
    assert (E : parse_value (S fuel) (digits d ++ rest)
                = parse_number false (digits d ++ rest)).
    { rewrite Hds. cbn [app parse_value]. now rewrite Hc. }
    rewrite E, <- Hn. now apply (parse_number_digits false).
  - cbn [parse_value app]. change (is_digit "-") with false. cbn iota.
    change ("-" =? "-")%char with true. cbn iota.
    rewrite <- Hn. now apply (parse_number_digits true).
Qed.

Lemma parse_chars_escape c tail :
  parse_chars (escape c ++ tail)
  = match parse_chars tail with
    | Some (s, r) => Some (c :: s, r)
    | None => None
    end.
Proof. each_byte c; reflexivity. Qed.

Lemma parse_chars_string s rest :
  parse_chars (flat_map escape s ++ quote :: rest) = Some (s, rest).
Proof.
  induction s as [|c s IH]; [reflexivity|].
  cbn [flat_map]. rewrite <- app_assoc, parse_chars_escape, IH. reflexivity.
Qed.

Lemma parse_chars_enc_string s rest :
  exists tail, enc_string s ++ rest = quote :: tail /\
               parse_chars tail = Some (list_ascii_of_string s, rest).
Proof.
  exists (flat_map escape (list_ascii_of_string s) ++ quote :: rest). split.
  - unfold enc_string. cbn [app]. now rewrite <- app_assoc.
  - apply parse_chars_string.
Qed.

Lemma parse_value_string fuel s rest :
  parse_value (S fuel) (enc_string s ++ rest) = Some (JStr s, rest).
Proof.
  destruct (parse_chars_enc_string s rest) as (tail & -> & Htail).
  cbn [parse_value]. change (is_digit quote) with false. cbn iota.
  change (quote =? "-")%char with false. cbn iota.
  change (quote =? quote)%char with true. cbn iota.
  rewrite Htail. now rewrite string_of_list_ascii_of_string.
Qed.

(** The first byte of a document's text is not a closing bracket. *)
Lemma enc_head v :
  exists c t, enc v = c :: t /\ (c =? "]")%char = false.
Proof.
  destruct v as [|[]|n|s|l|m]; try (do 2 eexists; split; reflexivity).
  unfold enc, enc_num.
  assert (Hnil : match Z.to_int n with
                 | Decimal.Pos d | Decimal.Neg d => d <> Decimal.Nil
                 end).
  { destruct n; cbn; try apply DecimalPos.Unsigned.to_uint_nonnil.
    discriminate. }
  destruct (Z.to_int n) as [d|d].
  - destruct (digits_head d Hnil) as (c & ds & -> & Hc).
    exists c, ds. split; [reflexivity|].
    revert Hc. each_byte c; vm_compute; congruence.
  - do 2 eexists; split; reflexivity.
Qed.

Lemma enc_nonempty v : (1 <= length (enc v))%nat.
Proof. destruct (enc_head v) as (c & t & -> & _). cbn. lia. Qed.

Lemma parse_elements_join vs :
  Forall reads_back vs -> vs <> [] ->
  forall rest fuel,
    (length (join (map enc vs)) < fuel)%nat ->
    parse_elements fuel (join (map enc vs) ++ "]"%char :: rest)
    = Some (vs, rest).
Proof.
  induction 1 as [|v vs Hv Hvs IH]; [congruence|]. intros _ rest fuel Hfuel.
  destruct fuel as [|fuel]; [lia|]. cbn [parse_elements].
  destruct vs as [|v' vs].
  - cbn [map join] in *. rewrite (Hv _ fuel) by (first [reflexivity | lia]).
    reflexivity.
  - change (join (map enc (v :: v' :: vs)))
      with (enc v ++ ","%char :: join (map enc (v' :: vs))) in *.
    rewrite length_app in Hfuel. cbn [length] in Hfuel.
    rewrite <- app_assoc. cbn [app].
    rewrite (Hv _ fuel) by (first [reflexivity | lia]).
    change ("," =? ",")%char with true. cbn iota.
    rewrite IH by (first [congruence | lia]). reflexivity.
Qed.

Lemma parse_members_join kvs :
  Forall (fun p => reads_back (snd p)) kvs -> kvs <> [] ->
  forall rest fuel,
    (length (join (map member (map entry_text kvs))) < fuel)%nat ->
    parse_members fuel
      (join (map member (map entry_text kvs)) ++ "}"%char :: rest)
    = Some (kvs, rest).
Proof.
  induction 1 as [|[k v] kvs Hv Hkvs IH]; [congruence|]. intros _ rest fuel Hfuel.
  destruct fuel as [|fuel]; [lia|].
  cbn [fst snd] in Hv.
  destruct kvs as [|p kvs].
  - cbn [map join] in *. unfold member, entry_text in *. cbn [fst snd] in *.
    rewrite length_app in Hfuel. cbn [length] in Hfuel.
    destruct (parse_chars_enc_string k
                (":"%char :: enc v ++ "}"%char :: rest)) as (tail & Ht & Htail).
    rewrite <- app_assoc. cbn [app]. rewrite Ht.
    cbn [parse_members]. change (quote =? quote)%char with true. cbn iota.
    rewrite Htail. change (":" =? ":")%char with true. cbn iota.
    rewrite (Hv _ fuel) by (first [reflexivity | lia]).
    change ("}" =? ",")%char with false. cbn iota.
    change ("}" =? "}")%char with true. cbn iota.
    now rewrite string_of_list_ascii_of_string.
  - change (join (map member (map entry_text ((k, v) :: p :: kvs))))
      with ((enc_string k ++ ":"%char :: enc v)
            ++ ","%char :: join (map member (map entry_text (p :: kvs)))) in *.
    rewrite !length_app in Hfuel. cbn [length] in Hfuel.
    destruct (parse_chars_enc_string k
                (":"%char :: enc v ++ ","%char
                 :: join (map member (map entry_text (p :: kvs)))
                 ++ "}"%char :: rest)) as (tail & Ht & Htail).
    rewrite <- !app_assoc. cbn [app]. rewrite Ht.
    cbn [parse_members]. change (quote =? quote)%char with true. cbn iota.
    rewrite Htail. change (":" =? ":")%char with true. cbn iota.
    rewrite (Hv _ fuel) by (first [reflexivity | lia]).
    change ("," =? ",")%char with true. cbn iota.
    rewrite IH by (first [congruence | lia]).
    now rewrite string_of_list_ascii_of_string.
Qed.

Lemma map_fold_entries (m : gmap string json) :
  map_fold (fun k x acc => (k, enc x) :: acc) [] m
  = map entry_text (map_to_list m).
Proof.
  rewrite map_fold_foldr. induction (map_to_list m) as [|[k x] l IH];
    [reflexivity|]. cbn [foldr uncurry map]. now rewrite IH.
Qed.

(** The members of an object in the order they are written. *)
Lemma sorted_entries (m : gmap string json) :
  exists kvs,
    merge_sort key_le (map_fold (fun k x acc => (k, enc x) :: acc) [] m)
    = map entry_text kvs /\
    kvs ≡ₚ map_to_list m.
Proof.
  rewrite map_fold_entries.
  pose proof (merge_sort_Permutation key_le
                (map entry_text (map_to_list m))) as Hp.
  apply Permutation_map_inv in Hp as (kvs & Hk & Hp).
  exists kvs. split; [exact Hk | now symmetry].
Qed.

Theorem enc_reads_back v : reads_back v.
Proof.
  induction v as [|b|n|s|l IH|m IH] using json_ind'; intros rest fuel Hrest Hfuel.
  - destruct fuel; [cbn in Hfuel; lia|]. reflexivity.
  - destruct fuel; [destruct b; cbn in Hfuel; lia|]. destruct b; reflexivity.
  - destruct fuel; [pose proof (enc_nonempty (JNum n)); lia|].
    now apply parse_value_num.
  - destruct fuel; [pose proof (enc_nonempty (JStr s)); lia|].
    apply parse_value_string.
  - destruct fuel as [|fuel]; [cbn in Hfuel; lia|].
    destruct l as [|v l]; [reflexivity|].
    cbn [enc] in *. cbn [length] in Hfuel. rewrite length_app in Hfuel.
    cbn [length] in Hfuel.
    pose proof (parse_elements_join (v :: l) IH ltac:(congruence) rest fuel
                  ltac:(lia)) as Hel.
    destruct (enc_head v) as (c & t & Hc & Hcb).
    cbn [app parse_value]. change (is_digit "[") with false. cbn iota.
    change ("[" =? "-")%char with false.
    change ("[" =? quote)%char with false.
    change ("[" =? "n")%char with false.
    change ("[" =? "t")%char with false.
    change ("[" =? "f")%char with false.
    change ("[" =? "[")%char with true. cbn iota.
    rewrite <- app_assoc. cbn [app].
    assert (Hj : exists t', join (map enc (v :: l)) ++ "]"%char :: rest = c :: t').
    { destruct l; cbn [map join]; rewrite Hc; eexists; reflexivity. }
    destruct Hj as (t' & Hj). rewrite Hj in *. rewrite Hcb, Hel. reflexivity.
  - destruct fuel as [|fuel]; [cbn in Hfuel; lia|].
    cbn [enc] in *.
    destruct (sorted_entries m) as (kvs & Hs & Hp). rewrite Hs in *.
    destruct kvs as [|[k v] kvs].
    + apply Permutation_nil_l in Hp. symmetry in Hp.
      apply map_to_list_empty_iff in Hp. subst m. reflexivity.
    + cbn [length] in Hfuel. rewrite length_app in Hfuel. cbn [length] in Hfuel.
      assert (Hall : Forall (fun p => reads_back (snd p)) ((k, v) :: kvs)).
      { rewrite Hp. apply Forall_forall. intros [k' v'] Hin.
        apply elem_of_map_to_list in Hin.
        exact (IH k' v' Hin). }
      pose proof (parse_members_join ((k, v) :: kvs) Hall ltac:(congruence)
                    rest fuel ltac:(lia)) as Hm.
      cbn [app parse_value]. change (is_digit "{") with false. cbn iota.
      change ("{" =? "-")%char with false.
      change ("{" =? quote)%char with false.
      change ("{" =? "n")%char with false.
      change ("{" =? "t")%char with false.
      change ("{" =? "f")%char with false.
      change ("{" =? "[")%char with false.
      change ("{" =? "{")%char with true. cbn iota.
      rewrite <- app_assoc. cbn [app].
      assert (Hj : exists t',
                 join (map member (map entry_text ((k, v) :: kvs)))
                 ++ "}"%char :: rest = quote :: t').
      { destruct kvs; cbn [map join member entry_text fst snd enc_string app];
          eexists; reflexivity. }
      destruct Hj as (t' & Hj). rewrite Hj in *.
      change (quote =? "}")%char with false. cbn iota. rewrite Hm.
      do 3 f_equal. rewrite <- (list_to_map_to_list m).
      apply list_to_map_proper; [|exact Hp].
      rewrite Hp. apply NoDup_fst_map_to_list.
Qed.

Lemma length_string_of_list_ascii l :
  String.length (string_of_list_ascii l) = length l.
Proof. induction l; cbn; congruence. Qed.

(** Parsing the text of a document gives the document back. *)
Theorem parse_text_of v : parse (text_of v) = Some v.
Proof.
  unfold parse, text_of.
  rewrite length_string_of_list_ascii, list_ascii_of_string_of_list_ascii.
  rewrite <- (app_nil_r (enc v)) at 2.
  rewrite (enc_reads_back v [] (S (length (enc v)))) by (first [exact I | lia]).
  reflexivity.
Qed.

(** ** The filter builder *)

Lemma entry_doc_weaken (sub sub' : Filter.ptr -> option json) e j :
  (forall f d, sub f = Some d -> sub' f = Some d) ->
  Filter.entry_doc sub e = Some j -> Filter.entry_doc sub' e = Some j.
Proof.
  intros Hsub. destruct e as [ops|fs]; cbn [Filter.entry_doc]; [auto|].
  intros Hj. apply fmap_Some in Hj as (js & Hjs & ->).
  apply fmap_Some. exists js. split; [|reflexivity].
  apply mapM_Some. apply mapM_Some in Hjs.
  eapply Forall2_impl; [exact Hjs|]. auto.
Qed.

(** A document stays what it is with more fuel and in a larger heap. *)
Lemma resolve_weaken n n' (h h' : Filter.heap) f j :
  Filter.resolve n h f = Some j -> (n <= n')%nat -> h ⊆ h' ->
  Filter.resolve n' h' f = Some j.
Proof.
  revert n' f j. induction n as [|n IH]; intros n' f j Hres Hn Hh;
    [discriminate|].
  destruct n' as [|n']; [lia|]. cbn [Filter.resolve] in *.
  destruct (h !! f) as [b|] eqn:Hb; [|discriminate].
  rewrite (lookup_weaken _ _ _ _ Hb Hh).
  destruct (mapM _ (map_to_list (Filter.filter b))) as [kvs|] eqn:Hkvs;
    [|discriminate].
  assert (Hkvs' :
    mapM (fun p => pair (fst p) <$> Filter.entry_doc (Filter.resolve n' h') (snd p))
      (map_to_list (Filter.filter b)) = Some kvs).
  { apply mapM_Some. apply mapM_Some in Hkvs.
    eapply Forall2_impl; [exact Hkvs|]. intros p q Hq.
    apply fmap_Some in Hq as (d & Hd & ->).
    apply fmap_Some. exists d. split; [|reflexivity].
    eapply entry_doc_weaken; [|exact Hd].
    intros g d' Hg. apply (IH n' g d' Hg); [lia | exact Hh]. }
  rewrite Hkvs'. exact Hres.
Qed.

Lemma NewFilter_fresh (h : Filter.heap) : h !! fst (Filter.NewFilter h) = None.
Proof. apply not_elem_of_dom, is_fresh. Qed.

Lemma document_weaken (h : Filter.heap) r b f j :
  h !! r = None -> Filter.document h f = Some j -> Filter.document (<[r := b]> h) f = Some j.
Proof.
  intros Hr Hj. unfold Filter.document in *.
  eapply resolve_weaken; [exact Hj | | now apply insert_subseteq].
  rewrite map_size_insert_None by assumption. lia.
Qed.

(** The document of a builder whose map has the single key [key]. *)
Lemma resolve_single n (h : Filter.heap) f key e d :
  h !! f = Some {| Filter.filter := {[key := e]} |} ->
  Filter.entry_doc (Filter.resolve n h) e = Some d ->
  Filter.resolve (S n) h f = Some (JObj {[key := d]}).
Proof.
  intros Hf Hd. cbn [Filter.resolve]. rewrite Hf. cbn [Filter.filter].
  rewrite map_to_list_singleton. cbn [mapM fst snd].
  rewrite Hd. cbn. now rewrite insert_empty.
Qed.

Lemma Build_parse f (h : Filter.heap) t :
  Filter.Build f h = Some t <-> exists j, Filter.document h f = Some j /\ t = text_of j.
Proof.
  unfold Filter.Build. rewrite fmap_Some. split; intros (j & ? & ?); eauto.
Qed.

Lemma NewFilter_insert (h : gmap nat Filter.FilterBuilder) :
  Filter.NewFilter h
  = (fresh (dom h), <[fresh (dom h) := {| Filter.filter := ∅ |}]> h).
Proof. reflexivity. Qed.

(** A comparison on a new builder leaves the one-field expression. *)
Lemma addCondition_new (h : gmap nat Filter.FilterBuilder) field op v :
  snd (Filter.addCondition (fresh (dom h)) field op v (snd (Filter.NewFilter h)))
  = <[fresh (dom h) :=
        {| Filter.filter :=
             {[field := Filter.Conditions {[op := v]}]} |}]> h.
Proof.
  cbn [Filter.addCondition Filter.NewFilter snd].
  rewrite alter_insert_eq. cbn [Filter.filter].
  rewrite lookup_empty. cbn [Filter.conditions_of].
  now rewrite !insert_empty.
Qed.

(** A comparison on a builder that holds conditions on the same field
    adds its operator to them. *)
Lemma addCondition_same_field (h : gmap nat Filter.FilterBuilder) f field ops
    op v :
  snd (Filter.addCondition f field op v
         (<[f := {| Filter.filter := {[field := Filter.Conditions ops]} |}]> h))
  = <[f := {| Filter.filter :=
                {[field := Filter.Conditions (<[op := v]> ops)]} |}]> h.
Proof.
  cbn [Filter.addCondition snd].
  rewrite alter_insert_eq. cbn [Filter.filter].
  rewrite lookup_singleton_eq. cbn [Filter.conditions_of].
  now rewrite insert_singleton_eq.
Qed.

Lemma document_conditions (h : gmap nat Filter.FilterBuilder) f field ops :
  Filter.document
    (<[f := {| Filter.filter := {[field := Filter.Conditions ops]} |}]> h) f
  = Some (JObj {[field := JObj ops]}).
Proof.
  unfold Filter.document. eapply resolve_single.
  - apply lookup_insert_eq.
  - reflexivity.
Qed.

Lemma Build_conditions (h : gmap nat Filter.FilterBuilder) f field ops :
  exists t,
    Filter.Build f
      (<[f := {| Filter.filter := {[field := Filter.Conditions ops]} |}]> h)
    = Some t /\
    parse t = Some (JObj {[field := JObj ops]}).
Proof.
  eexists. split.
  - unfold Filter.Build. rewrite document_conditions. reflexivity.
  - apply parse_text_of.
Qed.

Lemma comparisons_addCondition method op :
  (method, op) ∈ Filter.comparisons ->
  method = (fun f field value => Filter.addCondition f field op value).
Proof.
  unfold Filter.comparisons. rewrite !elem_of_cons, elem_of_nil.
  intros [H|[H|[H|[H|[H|[H|[]]]]]]]; injection H as -> ->; reflexivity.
Qed.

(** C5. On a new builder each of [Eq], [Ne], [Lt], [Lte], [Gt] and
    [Gte], called with a field and a value, hands back the builder, and
    [Build] then gives a text that parses to the document with the one
    key [field], holding the object with the one key of the operator
    and the value.  A second comparison with another operator on the
    same field leaves both operators under the field: the object there
    has the two keys with their values. *)
Theorem comparison_builds_operator_object :
  forall (h : gmap nat Filter.FilterBuilder) (field : string) (v : json)
         (method : nat -> string -> json -> gmap nat Filter.FilterBuilder
                   -> nat * gmap nat Filter.FilterBuilder)
         (op : Filter.FilterOperator),
    (method, op) ∈ Filter.comparisons ->
    let '(f, h1) := Filter.NewFilter h in
    let '(f', h2) := method f field v h1 in
    f' = f /\
    (exists t, Filter.Build f h2 = Some t /\
               parse t = Some (JObj {[field := JObj {[op := v]}]})) /\
    forall method2 (op2 : Filter.FilterOperator) (v2 : json),
      (method2, op2) ∈ Filter.comparisons -> op2 <> op ->
      let '(f'', h3) := method2 f field v2 h2 in
      f'' = f /\
      exists t ops, Filter.Build f h3 = Some t /\
                    parse t = Some (JObj {[field := JObj ops]}) /\
                    ops !! op = Some v /\ ops !! op2 = Some v2 /\
                    size ops = 2%nat.
Proof.
  intros h field v method op Hm.
  rewrite (comparisons_addCondition method op Hm).
  rewrite NewFilter_insert.
  pose proof (addCondition_new h field op v) as Hnew.
  rewrite NewFilter_insert in Hnew. cbn [snd] in Hnew.
  destruct (Filter.addCondition (fresh (dom h)) field op v _) as [f' h2] eqn:E.
  assert (f' = fresh (dom h)) as -> by (now injection E as <- _).
  cbn [snd] in Hnew. subst h2. split; [reflexivity|]. split.
  - apply Build_conditions.
  - intros method2 op2 v2 Hm2 Hne.
    rewrite (comparisons_addCondition method2 op2 Hm2).
    pose proof (addCondition_same_field h (fresh (dom h)) field {[op := v]}
                  op2 v2) as Hsame.
    destruct (Filter.addCondition (fresh (dom h)) field op2 v2 _)
      as [f'' h3] eqn:E2.
    assert (f'' = fresh (dom h)) as -> by (now injection E2 as <- _).
    cbn [snd] in Hsame. subst h3. split; [reflexivity|].
    destruct (Build_conditions h (fresh (dom h)) field (<[op2 := v2]> {[op := v]}))
      as (t & Ht & Hp).
    exists t, (<[op2 := v2]> {[op := v]}). repeat split; try assumption.
    + rewrite lookup_insert_ne by assumption. apply lookup_singleton_eq.
    + apply lookup_insert_eq.
    + rewrite map_size_insert_None, map_size_singleton; [reflexivity|].
      now apply lookup_singleton_ne.
Qed.

(** The document of a new builder that combines two sub-filters. *)
Lemma combine_documents (h : gmap nat Filter.FilterBuilder) op A B a b :
  Filter.document h A = Some a ->
  Filter.document h B = Some b ->
  let '(r, h1) := Filter.NewFilter h in
  let '(r', h2) := Filter.combine op r [A; B] h1 in
  r' = r /\
  Filter.document h2 A = Some a /\
  Filter.document h2 B = Some b /\
  Filter.document h2 r = Some (JObj {[op := JArr [a; b]]}).
Proof.
  intros HA HB. rewrite NewFilter_insert. cbn [Filter.combine].
  rewrite alter_insert_eq. cbn [Filter.filter]. rewrite insert_empty.
  set (r := fresh (dom h)).
  assert (Hr : h !! r = None) by apply not_elem_of_dom, is_fresh.
  set (b0 := {| Filter.filter := {[op := Filter.Subfilters [A; B]]} |}).
  split; [reflexivity|].
  split; [now apply document_weaken|].
  split; [now apply document_weaken|].
  unfold Filter.document in *. eapply resolve_single.
  - apply lookup_insert_eq.
  - rewrite map_size_insert_None by assumption.
    assert (HA' : Filter.resolve (S (size h)) (<[r := b0]> h) A = Some a).
    { eapply resolve_weaken; [exact HA | lia | now apply insert_subseteq]. }
    assert (HB' : Filter.resolve (S (size h)) (<[r := b0]> h) B = Some b).
    { eapply resolve_weaken; [exact HB | lia | now apply insert_subseteq]. }
    cbn [Filter.entry_doc mapM]. rewrite HA', HB'. reflexivity.
Qed.

(** C6. For sub-filters [A] and [B] that build, [And(A, B)] on a new
    builder builds a text that parses to the object with the one key
    [$and] holding the array of what the texts of [A] and of [B] parse
    to, in that order; [Or(A, B)] does the same under [$or].  The
    sub-filters build the same texts after the combination as before. *)
Theorem and_or_wrap_built_subfilters :
  forall (h : gmap nat Filter.FilterBuilder) (A B : nat) (ta tb : string),
    Filter.Build A h = Some ta ->
    Filter.Build B h = Some tb ->
    let '(r, h1) := Filter.NewFilter h in
    (let '(r', h2) := Filter.And r [A; B] h1 in
     r' = r /\
     Filter.Build A h2 = Some ta /\ Filter.Build B h2 = Some tb /\
     exists t a b,
       Filter.Build r h2 = Some t /\
       parse ta = Some a /\ parse tb = Some b /\
       parse t = Some (JObj {["$and" := JArr [a; b]]})) /\
    (let '(r', h2) := Filter.Or r [A; B] h1 in
     r' = r /\
     Filter.Build A h2 = Some ta /\ Filter.Build B h2 = Some tb /\
     exists t a b,
       Filter.Build r h2 = Some t /\
       parse ta = Some a /\ parse tb = Some b /\
       parse t = Some (JObj {["$or" := JArr [a; b]]})).
Proof.
  intros h A B ta tb HA HB.
  apply Build_parse in HA as (a & HA & ->).
  apply Build_parse in HB as (b & HB & ->).
  pose proof (combine_documents h Filter.OpAnd A B a b HA HB) as Hand.
  pose proof (combine_documents h Filter.OpOr A B a b HA HB) as Hor.
  destruct (Filter.NewFilter h) as [r h1].
  unfold Filter.And, Filter.Or. split.
  - destruct (Filter.combine Filter.OpAnd r [A; B] h1) as [r' h2].
    destruct Hand as (-> & HA2 & HB2 & Hr).
    unfold Filter.Build. rewrite HA2, HB2, Hr.
    repeat split. exists (text_of (JObj {[Filter.OpAnd := JArr [a; b]]})), a, b.
    repeat split; apply parse_text_of.
  - destruct (Filter.combine Filter.OpOr r [A; B] h1) as [r' h2].
    destruct Hor as (-> & HA2 & HB2 & Hr).
    unfold Filter.Build. rewrite HA2, HB2, Hr.
    repeat split. exists (text_of (JObj {[Filter.OpOr := JArr [a; b]]})), a, b.
    repeat split; apply parse_text_of.
Qed.

(** *** The builder's tests, evaluated *)

(** TestBuildWithEmptyFilter *)
Example build_empty_filter :
  (let '(f, h) := Filter.NewFilter ∅ in Filter.Build f h) = Some "{}".
Proof. vm_compute. reflexivity. Qed.

(** TestComparisonOperators, first case *)
Example build_eq_status_open :
  (let '(f, h) := Filter.NewFilter ∅ in
   let '(f, h) := Filter.Eq f "status" (JStr "open") h in
   Filter.Build f h) = Some status_open_text.
Proof. vm_compute. reflexivity. Qed.

(** TestLogicalOperators, And and Or *)
Example build_and_or :
  let '(filter1, filter2, h) := two_filters in
  (let '(andFilter, h) := Filter.NewFilter h in
   let '(andFilter, h) := Filter.And andFilter [filter1; filter2] h in
   Filter.Build andFilter h)
  = Some ("{" +:+ quoted "$and" +:+ ":[" +:+ status_open_text +:+ ","
          +:+ priority_gt_text +:+ "]}") /\
  (let '(orFilter, h) := Filter.NewFilter h in
   let '(orFilter, h) := Filter.Or orFilter [filter1; filter2] h in
   Filter.Build orFilter h)
  = Some ("{" +:+ quoted "$or" +:+ ":[" +:+ status_open_text +:+ ","
          +:+ priority_gt_text +:+ "]}").
Proof. vm_compute. split; reflexivity. Qed.

(** TestMultipleConditionsSameField *)
Example build_range_on_priority :
  (let '(f, h) := Filter.NewFilter ∅ in
   let '(f, h) := Filter.Gte f "priority" (JNum 1) h in
   let '(f, h) := Filter.Lte f "priority" (JNum 5) h in
   Filter.Build f h)
  = Some ("{" +:+ quoted "priority" +:+ ":{" +:+ quoted "$gte" +:+ ":1,"
          +:+ quoted "$lte" +:+ ":5}}").
Proof. vm_compute. reflexivity. Qed.

Lemma comparison_builds_operator_object_witness :
  let '(f, h1) := Filter.NewFilter ∅ in
  let '(f', h2) := Filter.Gte f "priority" (JNum 1) h1 in
  f' = f /\
  (exists t, Filter.Build f h2 = Some t /\
             parse t = Some (JObj {["priority" := JObj {[Filter.OpGte := JNum 1]}]})) /\
  forall method2 (op2 : Filter.FilterOperator) (v2 : json),
    (method2, op2) ∈ Filter.comparisons -> op2 <> Filter.OpGte ->
    let '(f'', h3) := method2 f "priority" v2 h2 in
    f'' = f /\
    exists t ops, Filter.Build f h3 = Some t /\
                  parse t = Some (JObj {["priority" := JObj ops]}) /\
                  ops !! Filter.OpGte = Some (JNum 1) /\ ops !! op2 = Some v2 /\
                  size ops = 2%nat.
Proof.
  apply (comparison_builds_operator_object ∅ "priority" (JNum 1)
           Filter.Gte Filter.OpGte).
  unfold Filter.comparisons. do 5 apply list_elem_of_further.
  apply list_elem_of_here.
Defined.

Lemma and_or_wrap_built_subfilters_witness :
  let '(filter1, filter2, h) := two_filters in
  let '(r, h1) := Filter.NewFilter h in
  (let '(r', h2) := Filter.And r [filter1; filter2] h1 in
   r' = r /\
   Filter.Build filter1 h2 = Some status_open_text /\
   Filter.Build filter2 h2 = Some priority_gt_text /\
   exists t a b,
     Filter.Build r h2 = Some t /\
     parse status_open_text = Some a /\ parse priority_gt_text = Some b /\
     parse t = Some (JObj {["$and" := JArr [a; b]]})) /\
  (let '(r', h2) := Filter.Or r [filter1; filter2] h1 in
   r' = r /\
   Filter.Build filter1 h2 = Some status_open_text /\
   Filter.Build filter2 h2 = Some priority_gt_text /\
   exists t a b,
     Filter.Build r h2 = Some t /\
     parse status_open_text = Some a /\ parse priority_gt_text = Some b /\
     parse t = Some (JObj {["$or" := JArr [a; b]]})).
Proof.
  apply (and_or_wrap_built_subfilters (snd two_filters)
           (fst (fst two_filters)) (snd (fst two_filters))
           status_open_text priority_gt_text).
  - vm_compute. reflexivity.
  - vm_compute. reflexivity.
Defined.

(** A sub-filter changed after it was combined: the combination builds
    with the change, since it holds the sub-filter by reference. *)
Example build_reads_subfilters_when_building :
  (let '(sub, h) := Filter.NewFilter ∅ in
   let '(sub, h) := Filter.Eq sub "status" (JStr "open") h in
   let '(root, h) := Filter.NewFilter h in
   let '(root, h) := Filter.And root [sub] h in
   let '(sub, h) := Filter.Gt sub "priority" (JNum 2) h in
   Filter.Build root h)
  = Some ("{" +:+ quoted "$and" +:+ ":[{" +:+ quoted "priority" +:+ ":{"
          +:+ quoted "$gt" +:+ ":2}," +:+ quoted "status" +:+ ":{"
          +:+ quoted "$eq" +:+ ":" +:+ quoted "open" +:+ "}}]}").
Proof. vm_compute. reflexivity. Qed.
